(** * gcli2api: the OAuth provisioning and credential-flow manager

    A shallow embedding of [src/auth_api.py] and the properties of its
    flow store, callback listener, waiters, project resolver, credential
    persister and panel-token table.

    Conventions of the embedding.
    - A Python [str] is a [string]; [None] is [None]; a value that may be
      [None] is an [option].
    - [time.time()] is read from the caller-supplied clock as an integer
      number of seconds ([Z]); subtraction and comparison are exact.
    - [auth_flows] is a Python dict that is iterated, so it is an
      association list in insertion order.  Its values are dict objects that
      are mutated in place and shared with whoever holds a reference, so they
      live in a heap and [auth_flows] holds their addresses.
    - A raised exception is the [Raise] result of the [res] monad.
    - Effects on the outside world (starting a listener shutdown, files) are
      recorded in the state that the functions thread. *)

From stdpp Require Import base numbers list strings gmap.
From Stdlib Require Import Ascii DecimalString DecimalZ DecimalN Sorted.

Local Open Scope Z_scope.

(** ** Python values, exceptions *)

Inductive exn :=
| KeyError (key : string)
| OSError (msg : string)
| RuntimeError (msg : string)
| Warning (msg : string)
| Exception (msg : string).

(** [str(e)] *)
Definition str_exn (e : exn) : string :=
  match e with
  | KeyError key => "'" +:+ key +:+ "'"
  | OSError msg | RuntimeError msg | Warning msg | Exception msg => msg
  end.

Inductive res (A : Type) :=
| Ok (a : A)
| Raise (e : exn).
Arguments Ok {A} a.
Arguments Raise {A} e.

Definition res_bind {A B} (m : res A) (k : A → res B) : res B :=
  match m with
  | Ok a => k a
  | Raise e => Raise e
  end.

Notation "'let?' x := m 'in' k" := (res_bind m (fun x => k))
  (at level 10, x pattern, m at level 100, k at level 200).

(** Truthiness of an [Optional[str]]: [None] and the empty string are false. *)
Definition truthy (s : option string) : bool :=
  match s with
  | Some s => bool_decide (s ≠ "")
  | None => false
  end.

(** [str(n)] for an [int] *)
Definition str_int (z : Z) : string := NilZero.string_of_int (Z.to_int z).
Definition str_N (n : N) : string := NilZero.string_of_uint (N.to_uint n).

(** ** Insertion-ordered dicts with string keys *)

Section dict.
Context {V : Type}.

Fixpoint dict_get (k : string) (d : list (string * V)) : option V :=
    match d with
    | [] => None
    | (k', v) :: d' => if decide (k = k') then Some v else dict_get k d'
    end.

  (** [k in d] *)
Definition dict_in (k : string) (d : list (string * V)) : bool :=
    bool_decide (is_Some (dict_get k d)).

  (** [d[k] = v]: an existing key keeps its position, a new key goes last. *)
Fixpoint dict_set (k : string) (v : V) (d : list (string * V)) : list (string * V) :=
    match d with
    | [] => [(k, v)]
    | (k', v') :: d' =>
        if decide (k = k') then (k, v) :: d' else (k', v') :: dict_set k v d'
    end.

  (** [del d[k]] (for a key that is present) *)
Fixpoint dict_del (k : string) (d : list (string * V)) : list (string * V) :=
    match d with
    | [] => []
    | (k', v') :: d' =>
        if decide (k = k') then d' else (k', v') :: dict_del k d'
    end.

  (** [dict(pairs)] *)
Definition dict_of_pairs (pairs : list (string * V)) : list (string * V) :=
    foldl (fun d kv => dict_set kv.1 kv.2 d) [] pairs.
End dict.

(** ** The flow store *)

(** A flow record is the dict built by [create_auth_url].  Every key is
    either present or absent ([flow_data.clear()] removes them all); the keys
    ['project_id'], ['user_session'] and ['code'] may hold [None].  The
    ['flow'] entry, the provider [Flow] object, is identified by the redirect
    URI it was built with; ['server'] and ['server_thread'] are handles. *)
Module flow_data.
Record t := mk {
    flow : option string;
    project_id : option (option string);
    user_session : option (option string);
    callback_port : option Z;
    callback_url : option string;
    server : option nat;
    server_thread : option nat;
    code : option (option string);
    completed : option bool;
    created_at : option Z;
    auto_project_detection : option bool
  }.

  (** [{}] *)
Definition empty : t :=
    mk None None None None None None None None None None None.

#[global] Instance eq_dec : EqDecision t.
Proof. solve_decision. Defined.

  (** [bool(d)]: a dict is true when it has a key. *)
Definition nonempty (d : t) : bool := bool_decide (d ≠ empty).

  (** [d.get('code')], [d.get('project_id')], [d.get('user_session')] *)
Definition get_code (d : t) : option string := mjoin (code d).
Definition get_project_id (d : t) : option string := mjoin (project_id d).
Definition get_user_session (d : t) : option string := mjoin (user_session d).

  (** [d['code'] = v], [d['completed'] = v], [d['project_id'] = v] *)
Definition set_code (v : option string) (d : t) : t :=
    mk (flow d) (project_id d) (user_session d) (callback_port d) (callback_url d)
       (server d) (server_thread d) (Some v) (completed d) (created_at d)
       (auto_project_detection d).
Definition set_completed (v : bool) (d : t) : t :=
    mk (flow d) (project_id d) (user_session d) (callback_port d) (callback_url d)
       (server d) (server_thread d) (code d) (Some v) (created_at d)
       (auto_project_detection d).
Definition set_project_id (v : option string) (d : t) : t :=
    mk (flow d) (Some v) (user_session d) (callback_port d) (callback_url d)
       (server d) (server_thread d) (code d) (completed d) (created_at d)
       (auto_project_detection d).
End flow_data.

(** What the module does to the world besides its own tables: it starts a
    background shutdown of a listener, and it asks the provider to enable the
    required services of a project.  The deletion of a key of [auth_flows] is
    logged as well, so that the order of the two can be read off. *)
Inductive event :=
| Shutdown (server : nat) (port : option Z)
| Del (state : string)
| EnableApis (project_id : string).

Record world := World {
  heap : list flow_data.t;
  auth_flows : list (string * nat);
  trace : list event
}.

(** The dict object behind a reference. *)
Definition deref (w : world) (a : nat) : flow_data.t :=
  default flow_data.empty (heap w !! a).

(** In-place update of the dict object at [a]. *)
Definition mutate (a : nat) (f : flow_data.t → flow_data.t) (w : world) : world :=
  World (alter f a (heap w)) (auth_flows w) (trace w).

(** [auth_flows[state]] *)
Definition getitem (state : string) (w : world) : res nat :=
  match dict_get state (auth_flows w) with
  | Some a => Ok a
  | None => Raise (KeyError state)
  end.

(** The flow record registered under [state], if any. *)
Definition flow_of (state : string) (w : world) : option flow_data.t :=
  a ← dict_get state (auth_flows w); heap w !! a.

(** [async_shutdown_server(server, port)]: hands the shutdown to a daemon
    thread and returns at once. *)
Definition async_shutdown_server (server : nat) (port : option Z) (w : world) : world :=
  World (heap w) (auth_flows w) (trace w ++ [Shutdown server port]).

(** The guarded shutdown that every teardown starts with:
    [if flow_data.get('server'): async_shutdown_server(server, flow_data.get('callback_port'))] *)
Definition shutdown_if_server (d : flow_data.t) (w : world) : world :=
  match flow_data.server d with
  | Some srv => async_shutdown_server srv (flow_data.callback_port d) w
  | None => w
  end.

(** [del auth_flows[state]] *)
Definition del_flow (state : string) (w : world) : world :=
  World (heap w) (dict_del state (auth_flows w)) (trace w ++ [Del state]).

(** ** The callback listener *)

Record response := Response {
  status : Z;
  content_type : string;
  body : string
}.

Definition success_page : response :=
  Response 200 "text/html"
    "<h1>OAuth authentication successful!</h1><p>You can close this window. Please return to the original page and click 'Get Credentials' button.</p>".

Definition failure_page : response :=
  Response 400 "text/html" "<h1>Authentication failed.</h1><p>Please try again.</p>".

(** [query_components.get(k, [None])[0]], where [query_components] is the
    result of [parse_qs]: a dict from parameter names to the non-empty lists
    of their values. *)
Definition first_value (k : string) (query_components : gmap string (list string)) : option string :=
  match query_components !! k with
  | Some (v :: _) => Some v
  | _ => None
  end.

(** [AuthCallbackHandler.do_GET] *)
Definition do_GET (query_components : gmap string (list string)) (w : world) : response * world :=
  let code := first_value "code" query_components in
  let state := first_value "state" query_components in
  match state with
  | Some s =>
      if truthy code && truthy state && dict_in s (auth_flows w) then
        match getitem s w with
        | Ok a =>
            let w := mutate a (flow_data.set_code code) w in
            let w := mutate a (flow_data.set_completed true) w in
            (success_page, w)
        | Raise _ => (failure_page, w)
        end
      else (failure_page, w)
  | None => (failure_page, w)
  end.

(** ** Expiry and the memory guard *)

Definition EXPIRY_TIME : Z := 600.

(** The list comprehension of [cleanup_expired_flows]:
    [[state for state, flow_data in auth_flows.items()
      if current_time - flow_data['created_at'] > EXPIRY_TIME]] *)
Fixpoint states_to_remove (current_time : Z) (w : world) (items : list (string * nat))
  : res (list string) :=
  match items with
  | [] => Ok []
  | (state, a) :: items' =>
      match flow_data.created_at (deref w a) with
      | None => Raise (KeyError "created_at")
      | Some created =>
          let? rest := states_to_remove current_time w items' in
          Ok (if bool_decide (current_time - created > EXPIRY_TIME)
              then state :: rest else rest)
      end
  end.

(** [flow_data.clear()] on the object at [a] *)
Definition clear (a : nat) (w : world) : world :=
  mutate a (fun _ => flow_data.empty) w.

(** One turn of the loop [for state in states_to_remove] *)
Definition remove_expired (w : world) (state : string) : world :=
  match dict_get state (auth_flows w) with
  | Some a =>
      let flow_data := deref w a in
      if flow_data.nonempty flow_data then
        let w := shutdown_if_server flow_data w in
        let w := clear a w in
        del_flow state w
      else w
  | None => w
  end.

(** [cleanup_expired_flows()], with the clock reading it makes *)
Definition cleanup_expired_flows (current_time : Z) (w : world) : res world :=
  let? states := states_to_remove current_time w (auth_flows w) in
  Ok (foldl remove_expired w states).

(** [sorted(items, key=..., reverse=True)]: a stable sort, largest key first;
    items with equal keys keep their order. *)
Section sorted.
Context {A : Type} (key : A → Z).

Fixpoint insert_desc (x : A) (l : list A) : list A :=
    match l with
    | [] => [x]
    | y :: l' => if bool_decide (key x < key y) then y :: insert_desc x l' else x :: l
    end.

Definition sorted_desc (l : list A) : list A := foldr insert_desc [] l.
End sorted.

(** [lambda x: x[1].get('created_at', 0)] *)
Definition created_at_key (w : world) (item : string * nat) : Z :=
  default 0 (flow_data.created_at (deref w item.2)).

(** One turn of the loop over the old table in
    [cleanup_auth_flows_for_memory] *)
Definition drop_unless_kept (new_auth_flows : list (string * nat)) (w : world)
    (item : string * nat) : world :=
  if dict_in item.1 new_auth_flows then w
  else
    let flow_data := deref w item.2 in
    let w := shutdown_if_server flow_data w in
    clear item.2 w.

(** [cleanup_auth_flows_for_memory()]; returns [len(auth_flows)] *)
Definition cleanup_auth_flows_for_memory (current_time : Z) (w : world) : res (nat * world) :=
  let? w := cleanup_expired_flows current_time w in
  if bool_decide (10 < length (auth_flows w))%nat then
    let sorted_flows := sorted_desc (created_at_key w) (auth_flows w) in
    let new_auth_flows := dict_of_pairs (take 10 sorted_flows) in
    let w := foldl (drop_unless_kept new_auth_flows) w (auth_flows w) in
    let w := World (heap w) new_auth_flows (trace w) in
    Ok (length (auth_flows w), w)
  else Ok (length (auth_flows w), w).

(** ** The status of a flow *)

(** [{'status': ..., 'state': ..., 'created_at': ...}] or
    [{'status': 'not_found'}] *)
Inductive auth_status :=
| Status (status : string) (state : string) (created_at : Z)
| NotFound.

(** The loop of [get_auth_status(project_id)] over [auth_flows.items()] *)
Fixpoint get_auth_status_in (project_id : string) (w : world) (items : list (string * nat))
  : res auth_status :=
  match items with
  | [] => Ok NotFound
  | (state, a) :: items' =>
      let flow_data := deref w a in
      match flow_data.project_id flow_data with
      | None => Raise (KeyError "project_id")
      | Some flow_project =>
          if bool_decide (flow_project = Some project_id) then
            match flow_data.completed flow_data with
            | None => Raise (KeyError "completed")
            | Some completed =>
                match flow_data.created_at flow_data with
                | None => Raise (KeyError "created_at")
                | Some created =>
                    Ok (Status (if completed then "completed" else "pending") state created)
                end
            end
          else get_auth_status_in project_id w items'
      end
  end.

(** [get_auth_status(project_id)] *)
Definition get_auth_status (project_id : string) (w : world) : res auth_status :=
  get_auth_status_in project_id w (auth_flows w).

(** ** Ports, listeners and the authorization URL *)

Definition CALLBACK_HOST : string := "localhost".

(** The operating system and the provider library, as [create_auth_url]
    meets them. *)
Record platform := Platform {
  DEFAULT_CALLBACK_PORT : Z;
  (** does [s.bind(('0.0.0.0', port))] succeed? *)
  bind : Z → bool;
  (** [s.bind(('0.0.0.0', 0)); s.getsockname()[1]] *)
  bind_any : res Z;
  (** [HTTPServer(("0.0.0.0", port), AuthCallbackHandler)] *)
  HTTPServer : Z → res nat;
  (** [threading.Thread(target=server.serve_forever, ...).start()] *)
  Thread_start : nat → res nat;
  (** [Flow.from_client_config(..., redirect_uri).authorization_url(..., state)] *)
  authorization_url : string → string → res string;
  (** [str(uuid.uuid4())] *)
  uuid4 : string
}.

(** [for port in range(start_port, start_port + n)]: the first that binds *)
Fixpoint first_bindable (bind : Z → bool) (port : Z) (n : nat) : option Z :=
  match n with
  | O => None
  | S n' => if bind port then Some port else first_bindable bind (port + 1) n'
  end.

(** [find_available_port()] *)
Definition find_available_port (P : platform) : res Z :=
  let start_port := DEFAULT_CALLBACK_PORT P in
  match first_bindable (bind P) start_port 100 with
  | Some port => Ok port
  | None =>
      match bind_any P with
      | Raise (OSError _) => Raise (RuntimeError "无法找到可用端口")
      | r => r
      end
  end.

(** [create_callback_server(port)]: logs and re-raises *)
Definition create_callback_server (P : platform) (port : Z) : res nat := HTTPServer P port.

(** The state token of a new flow:
    [f"{user_session}_{str(uuid.uuid4())}"] with a session, the bare uuid
    without *)
Definition new_state (P : platform) (user_session : option string) : string :=
  if truthy user_session
  then default "" user_session +:+ "_" +:+ uuid4 P
  else uuid4 P.

(** The inner [try] of [create_auth_url]: the server and its thread *)
Definition start_listener (P : platform) (callback_port : Z) : res (nat * nat) :=
  let? callback_server := create_callback_server P callback_port in
  let? server_thread := Thread_start P callback_server in
  Ok (callback_server, server_thread).

Inductive auth_url_result :=
| AuthUrl (auth_url state : string) (callback_port : Z)
          (auto_project_detection : bool) (detected_project_id : option string)
| AuthUrlError (error : string).

(** [auth_flows[state] = {...}] with a new dict object *)
Definition register (state : string) (d : flow_data.t) (w : world) : world :=
  World (heap w ++ [d]) (dict_set state (length (heap w)) (auth_flows w)) (trace w).

(** [create_auth_url(project_id, user_session)]; [created] and [swept] are
    the two clock readings it makes. *)
Definition create_auth_url (P : platform) (project_id user_session : option string)
    (created swept : Z) (w : world) : auth_url_result * world :=
  match find_available_port P with
  | Raise e => (AuthUrlError (str_exn e), w)
  | Ok callback_port =>
      let callback_url := "http://" +:+ CALLBACK_HOST +:+ ":" +:+ str_int callback_port in
      match start_listener P callback_port with
      | Raise e =>
          (AuthUrlError ("无法启动OAuth回调服务器，端口" +:+ str_int callback_port
                         +:+ ": " +:+ str_exn e), w)
      | Ok (callback_server, server_thread) =>
          let state := new_state P user_session in
          match authorization_url P callback_url state with
          | Raise e => (AuthUrlError (str_exn e), w)
          | Ok auth_url =>
              let w := register state
                {| flow_data.flow := Some callback_url;
                   flow_data.project_id := Some project_id;
                   flow_data.user_session := Some user_session;
                   flow_data.callback_port := Some callback_port;
                   flow_data.callback_url := Some callback_url;
                   flow_data.server := Some callback_server;
                   flow_data.server_thread := Some server_thread;
                   flow_data.code := Some None;
                   flow_data.completed := Some false;
                   flow_data.created_at := Some created;
                   flow_data.auto_project_detection :=
                     Some (bool_decide (project_id = None)) |} w in
              match cleanup_expired_flows swept w with
              | Raise e => (AuthUrlError (str_exn e), w)
              | Ok w =>
                  (AuthUrl auth_url state callback_port
                     (bool_decide (project_id = None)) project_id, w)
              end
          end
      end
  end.

(** ** Waiting for the callback *)

(** What a waiter sees of the rest of the process: the clock at each of its
    readings, and what the other threads and tasks (the listener, sweeps,
    other requests) do to the flow store during each of its sleeps. *)
Record schedule := Schedule {
  clock : nat → Z;
  sleep : nat → world → world
}.

(** The loop of [wait_for_callback_sync], [fuel] turns of it at most; [i]
    counts the turns, [flow_data] is the reference the waiter holds. *)
Fixpoint wait_loop (state : string) (timeout start_time : Z) (sch : schedule)
    (fuel i flow_data : nat) (w : world) : option (option string * world) :=
  match fuel with
  | O => None
  | S fuel' =>
      if bool_decide (clock sch (S i) - start_time < timeout) then
        if truthy (flow_data.get_code (deref w flow_data)) then
          Some (flow_data.get_code (deref w flow_data), w)
        else
          let w := sleep sch i w in
          let flow_data := default flow_data (dict_get state (auth_flows w)) in
          wait_loop state timeout start_time sch fuel' (S i) flow_data w
      else Some (None, w)
  end.

(** [wait_for_callback_sync(state, timeout)].  [None] when the loop does not
    end within [fuel] turns. *)
Definition wait_for_callback_sync (state : string) (timeout : Z) (sch : schedule)
    (fuel : nat) (w : world) : option (res (option string) * world) :=
  if dict_in state (auth_flows w) then
    match getitem state w with
    | Ok flow_data =>
        match flow_data.callback_port (deref w flow_data) with
        | None => Some (Raise (KeyError "callback_port"), w)
        | Some callback_port =>
            let start_time := clock sch 0 in
            '(r, w) ← wait_loop state timeout start_time sch fuel 0 flow_data w;
            Some (Ok r, w)
        end
    | Raise e => Some (Raise e, w)
    end
  else Some (Ok None, w).

(** The state of the store at the [i]th turn of a waiter that started in
    [w], as long as the waiter itself does not change it *)
Fixpoint world_at (sch : schedule) (w : world) (i : nat) : world :=
  match i with
  | O => w
  | S i' => sleep sch i' (world_at sch w i')
  end.

(** The reference that a waiter for [state] holds at its [i]th turn, when
    it started with [a]: each refresh takes the record registered then, if
    there is one. *)
Fixpoint ref_at (state : string) (sch : schedule) (w : world) (a i : nat) : nat :=
  match i with
  | O => a
  | S i' =>
      default (ref_at state sch w a i')
        (dict_get state (auth_flows (world_at sch w (S i'))))
  end.

(** What the rest of the process does to the flow store while a waiter
    sleeps: the listener thread serves a callback, a sweep or the memory
    guard runs, another request creates a flow. *)
Inductive operation :=
| Callback (query_components : gmap string (list string))
| Sweep (current_time : Z)
| MemoryGuard (current_time : Z)
| Create (P : platform) (project_id user_session : option string) (created swept : Z).

Definition perform (w : world) (op : operation) : world :=
  match op with
  | Callback query_components => (do_GET query_components w).2
  | Sweep current_time =>
      match cleanup_expired_flows current_time w with
      | Ok w' => w'
      | Raise _ => w
      end
  | MemoryGuard current_time =>
      match cleanup_auth_flows_for_memory current_time w with
      | Ok (_, w') => w'
      | Raise _ => w
      end
  | Create P project_id user_session created swept =>
      (create_auth_url P project_id user_session created swept w).2
  end.

(** The state that an operation registers a flow under, if it creates one *)
Definition registers (op : operation) : option string :=
  match op with
  | Create P _ user_session _ _ => Some (new_state P user_session)
  | _ => None
  end.

(** The schedule on which the operations [ops i] run during the [i]th
    sleep *)
Definition busy (clock : nat → Z) (ops : nat → list operation) : schedule :=
  Schedule clock (fun i w => foldl perform w (ops i)).

(** ** Strings and paths *)

(** [c.lower()] and [s.lower()], on ASCII text *)
Definition lower_ascii (c : ascii) : ascii :=
  let n := N_of_ascii c in
  if ((65 <=? n) && (n <=? 90))%N then ascii_of_N (n + 32) else c.

Fixpoint lower (s : string) : string :=
  match s with
  | EmptyString => EmptyString
  | String c s' => String (lower_ascii c) (lower s')
  end.

(** [needle in hay] *)
Fixpoint contains (needle hay : string) : bool :=
  String.prefix needle hay ||
  match hay with
  | EmptyString => false
  | String _ hay' => contains needle hay'
  end.

(** [s.rfind(c)], [None] for -1 *)
Fixpoint rfind (c : ascii) (s : string) : option nat :=
  match s with
  | EmptyString => None
  | String c' s' =>
      match rfind c s' with
      | Some i => Some (S i)
      | None => if decide (c = c') then Some 0%nat else None
      end
  end.

(** [p[i:]] and [p[:i]] *)
Definition str_from (i : nat) (p : string) : string :=
  String.substring i (String.length p - i) p.
Definition str_upto (i : nat) (p : string) : string := String.substring 0 i p.

Fixpoint all_dots (s : string) : bool :=
  match s with
  | EmptyString => true
  | String c s' => bool_decide (c = "."%char) && all_dots s'
  end.

(** [os.path.splitext(p)[0]] (posixpath): the extension starts at the last
    dot of the last component, leading dots of the component not counted. *)
Definition splitext_root (p : string) : string :=
  let filename_index := from_option S 0%nat (rfind "/" p) in
  match rfind "." p with
  | Some dot_index =>
      if bool_decide (filename_index ≤ dot_index)%nat
         && negb (all_dots (String.substring filename_index (dot_index - filename_index) p))
      then str_upto dot_index p
      else p
  | None => p
  end.

(** [os.path.basename(p)] *)
Definition basename (p : string) : string :=
  str_from (from_option S 0%nat (rfind "/" p)) p.

(** [os.path.join(a, b)] *)
Definition path_join (a b : string) : string :=
  if String.prefix "/" b then b
  else if bool_decide (a = "") || bool_decide (String.get (String.length a - 1) a = Some "/"%char)
       then a +:+ b
       else a +:+ "/" +:+ b.

(** ** Projects *)

(** An entry of the provider's project listing. *)
Record project := Project {
  projectId : option string;
  displayName : option string;
  projectNumber : option string
}.

(** The test of strategy 1 of [select_default_project] *)
Definition mentions_default (p : project) : bool :=
  let display_name := lower (default "" (displayName p)) in
  let project_id := default "" (projectId p) in
  contains "default" display_name || contains "default" (lower project_id).

(** [select_default_project(projects)] *)
Definition select_default_project (projects : list project) : option string :=
  match projects with
  | [] => None
  | first_project :: _ =>
      match List.find mentions_default projects with
      | Some p => Some (default "" (projectId p))
      | None => Some (default "" (projectId first_project))
      end
  end.

(** ** Credentials and their files *)

Definition CLIENT_ID : string :=
  "681255809395-oo8ft2oprdrnp9e3aqf6av3hmdib135j.apps.googleusercontent.com".
Definition CLIENT_SECRET : string := "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".
Definition SCOPES : list string :=
  [ "https://www.googleapis.com/auth/cloud-platform";
    "https://www.googleapis.com/auth/userinfo.email";
    "https://www.googleapis.com/auth/userinfo.profile" ].

(** A [datetime]: its naive ISO text and, when aware, its offset suffix. *)
Record datetime := Datetime {
  naive_iso : string;
  tzinfo : option string
}.

Definition isoformat (t : datetime) : string := naive_iso t +:+ default "" (tzinfo t).

(** [Credentials] as returned by the token exchange *)
Record credentials := Credentials {
  token : string;
  refresh_token : option string;
  scopes : option (list string);
  expiry : option datetime
}.

(** The values of a credential document *)
Inductive json :=
| JNull
| JStr (s : string)
| JStrs (l : list string)
| JOther (text : string).

Definition json_of_option (s : option string) : json :=
  match s with
  | Some s => JStr s
  | None => JNull
  end.

(** The dict [creds_data] built by [save_credentials] and by the two
    completion functions *)
Definition creds_data (creds : credentials) (project_id : string) : list (string * json) :=
  let data :=
    [ ("client_id", JStr CLIENT_ID);
      ("client_secret", JStr CLIENT_SECRET);
      ("token", JStr (token creds));
      ("refresh_token", json_of_option (refresh_token creds));
      ("scopes", JStrs (match scopes creds with
                        | Some (_ :: _ as l) => l
                        | _ => SCOPES
                        end));
      ("token_uri", JStr "https://oauth2.googleapis.com/token");
      ("project_id", JStr project_id) ] in
  match expiry creds with
  | Some e =>
      let expiry_utc :=
        match tzinfo e with
        | None => Datetime (naive_iso e) (Some "+00:00")
        | Some _ => e
        end in
      dict_set "expiry" (JStr (isoformat expiry_utc)) data
  | None => data
  end.

(** The files of the machine: the documents by path, and the paths that
    [open(path, "w")] refuses. *)
Record filesystem := Filesystem {
  files : gmap string (list (string * json));
  open_error : string → option exn
}.

(** [with open(path, "w") as f: json.dump(data, f)] *)
Definition write_json (path : string) (data : list (string * json)) (fs : filesystem)
  : res filesystem :=
  match open_error fs path with
  | Some e => Raise e
  | None => Ok (Filesystem (<[path := data]> (files fs)) (open_error fs))
  end.

(** [os.path.exists(path)] *)
Definition path_exists (path : string) (fs : filesystem) : bool :=
  bool_decide (is_Some (files fs !! path)).

(** [save_credentials(creds, project_id)]; [timestamp] is [int(time.time())] *)
Definition save_credentials (CREDENTIALS_DIR : string) (creds : credentials)
    (project_id : string) (timestamp : N) (fs : filesystem) : res (string * filesystem) :=
  let filename := project_id +:+ "-" +:+ str_N timestamp +:+ ".json" in
  let file_path := path_join CREDENTIALS_DIR filename in
  let? fs := write_json file_path (creds_data creds project_id) fs in
  Ok (file_path, fs).

(** A parsed upload: a JSON object, or another JSON value, of which the code
    only asks [field in value]. *)
Inductive json_doc :=
| JObject (d : list (string * json))
| JValue (has : string → res bool).

(** [field in creds_data] *)
Definition doc_has (field : string) (doc : json_doc) : res bool :=
  match doc with
  | JObject d => Ok (dict_in field d)
  | JValue has => has field
  end.

Inductive validation :=
| Valid (data : json_doc)
| Invalid (error : string).

(** [[field for field in required_fields if field not in creds_data]] *)
Fixpoint missing_fields (doc : json_doc) (required_fields : list string) : res (list string) :=
  match required_fields with
  | [] => Ok []
  | field :: fields =>
      let? present := doc_has field doc in
      let? rest := missing_fields doc fields in
      Ok (if present then rest else field :: rest)
  end.

(** [validate_credential_file(file_content)]; [json_loads] stands for
    [json.loads], whose decoding errors are [Exception]s here and reported
    under the first of the two messages. *)
Definition validate_credential_file (json_loads : string → res json_doc)
    (file_content : string) : validation :=
  match json_loads file_content with
  | Raise e => Invalid ("JSON格式错误: " +:+ str_exn e)
  | Ok doc =>
      match missing_fields doc ["client_id"; "client_secret"; "refresh_token"; "token_uri"] with
      | Raise e => Invalid ("文件验证失败: " +:+ str_exn e)
      | Ok [] =>
          match doc_has "project_id" doc with
          | Raise e => Invalid ("文件验证失败: " +:+ str_exn e)
          | Ok _ => Valid doc
          end
      | Ok missing => Invalid ("缺少必要字段: " +:+ String.concat ", " missing)
      end
  end.

Inductive upload_result :=
| Uploaded (file_path : string) (project_id : json)
| UploadError (error : string).

(** The loop [while os.path.exists(file_path)] of [save_uploaded_credential],
    [fuel] turns of it at most. *)
Fixpoint unique_path (fs : filesystem) (candidate : N → string) (fuel : nat)
    (file_path : string) (counter : N) : option string :=
  if path_exists file_path fs then
    match fuel with
    | O => None
    | S fuel' => unique_path fs candidate fuel' (candidate counter) (counter + 1)%N
    end
  else Some file_path.

(** [save_uploaded_credential(file_content, original_filename)].  [None] when
    the probing loop does not end within [fuel] turns. *)
Definition save_uploaded_credential (CREDENTIALS_DIR : string)
    (json_loads : string → res json_doc) (file_content original_filename : string)
    (timestamp : N) (fuel : nat) (fs : filesystem) : option (upload_result * filesystem) :=
  match validate_credential_file json_loads file_content with
  | Invalid error => Some (UploadError error, fs)
  | Valid (JValue _) =>
      Some (UploadError (str_exn (Exception "object has no attribute 'get'")), fs)
  | Valid (JObject creds_data) =>
      let project_id := default (JStr "unknown") (dict_get "project_id" creds_data) in
      let base_name := splitext_root original_filename in
      let filename := base_name +:+ "-" +:+ str_N timestamp +:+ ".json" in
      let file_path := path_join CREDENTIALS_DIR filename in
      let candidate counter :=
        path_join CREDENTIALS_DIR
          (base_name +:+ "-" +:+ str_N timestamp +:+ "-" +:+ str_N counter +:+ ".json") in
      file_path ← unique_path fs candidate fuel file_path 1%N;
      match write_json file_path creds_data fs with
      | Raise e => Some (UploadError (str_exn e), fs)
      | Ok fs => Some (Uploaded (basename file_path) project_id, fs)
      end
  end.

(** An element of [files_data]: a dict that may have ['filename'] and
    ['content'] *)
Record file_data := FileData {
  fd_filename : option string;
  fd_content : option string
}.

(** [{'uploaded_count': ..., 'total_count': ..., 'results': [...]}]; each
    result is that of [save_uploaded_credential] with its ['filename'] *)
Record batch_result := BatchResult {
  uploaded_count : nat;
  total_count : nat;
  results : list (string * upload_result)
}.

Definition upload_succeeded (r : upload_result) : bool :=
  match r with
  | Uploaded _ _ => true
  | UploadError _ => false
  end.

(** The loop of [batch_upload_credentials]; [now i] is [int(time.time())]
    during the upload of the [i]th file. *)
Fixpoint batch_upload_loop (CREDENTIALS_DIR : string) (json_loads : string → res json_doc)
    (now : nat → N) (fuel : nat) (files_data : list file_data) (i : nat)
    (results : list (string * upload_result)) (success_count : nat) (fs : filesystem)
  : option (list (string * upload_result) * nat * filesystem) :=
  match files_data with
  | [] => Some (results, success_count, fs)
  | file_data :: files_data' =>
      let filename := default "unknown.json" (fd_filename file_data) in
      let content := default "" (fd_content file_data) in
      '(result, fs) ←
        save_uploaded_credential CREDENTIALS_DIR json_loads content filename (now i) fuel fs;
      batch_upload_loop CREDENTIALS_DIR json_loads now fuel files_data' (S i)
        (results ++ [(filename, result)])
        (if upload_succeeded result then S success_count else success_count) fs
  end.

(** [batch_upload_credentials(files_data)].  [None] when a probing loop does
    not end within [fuel] turns. *)
Definition batch_upload_credentials (CREDENTIALS_DIR : string)
    (json_loads : string → res json_doc) (now : nat → N) (fuel : nat)
    (files_data : list file_data) (fs : filesystem) : option (batch_result * filesystem) :=
  '(results, success_count, fs) ←
    batch_upload_loop CREDENTIALS_DIR json_loads now fuel files_data 0 [] 0 fs;
  Some (BatchResult success_count (length files_data) results, fs).

(** ** Panel tokens *)

Definition TOKEN_EXPIRY : Z := 21600.

(** [cleanup_expired_tokens()] *)
Definition cleanup_expired_tokens (current_time : Z) (auth_tokens : gmap string Z)
  : gmap string Z :=
  filter (fun '(_, created_at) => ¬ (current_time - created_at > TOKEN_EXPIRY)) auth_tokens.

(** [generate_auth_token()]: [token] is [secrets.token_urlsafe(32)],
    [swept] and [issued] are its two clock readings. *)
Definition generate_auth_token (token : string) (swept issued : Z)
    (auth_tokens : gmap string Z) : string * gmap string Z :=
  let auth_tokens := cleanup_expired_tokens swept auth_tokens in
  (token, <[token := issued]> auth_tokens).

(** [verify_auth_token(token)] *)
Definition verify_auth_token (token : string) (now : Z) (auth_tokens : gmap string Z)
  : bool * gmap string Z :=
  if negb (bool_decide (token ≠ "")) || negb (bool_decide (is_Some (auth_tokens !! token)))
  then (false, auth_tokens)
  else
    match auth_tokens !! token with
    | Some created_at =>
        if bool_decide (now - created_at > TOKEN_EXPIRY)
        then (false, delete token auth_tokens)
        else (true, auth_tokens)
    | None => (false, auth_tokens)
    end.

(** [invalidate_auth_token(token)] *)
Definition invalidate_auth_token (token : string) (auth_tokens : gmap string Z)
  : gmap string Z :=
  if bool_decide (is_Some (auth_tokens !! token)) then delete token auth_tokens
  else auth_tokens.

(** ** Completing a flow *)

Record available_project := AvailableProject {
  ap_projectId : option string;
  ap_name : option string;
  ap_projectNumber : option string
}.

(** The result dicts of the two completion functions:
    [{'success': True, 'credentials', 'file_path', 'auto_detected_project'}],
    [{'success': False, 'error'}] with or without
    ['requires_manual_project_id': True], and
    [{'success': False, 'error', 'requires_project_selection': True,
      'available_projects'}]. *)
Inductive auth_result :=
| AuthSuccess (credentials : list (string * json)) (file_path : string)
              (auto_detected_project : bool)
| AuthFailure (error : string) (requires_manual_project_id : bool)
| AuthSelection (error : string) (available_projects : list available_project).

Definition NO_FLOW : string := "未找到对应的认证流程，请先点击获取认证链接".
Definition CANNOT_DETECT : string := "无法自动检测项目ID，请手动指定项目ID".
Definition MISSING_PROJECT : string := "缺少项目ID，请指定项目ID".
Definition NO_CALLBACK : string := "未接收到授权回调，请确保完成了浏览器中的OAuth认证".
Definition CALLBACK_TIMEOUT : string :=
  "等待OAuth回调超时，请确保完成了浏览器中的认证并看到成功页面".
Definition SELECT_PROJECT : string := "请从以下项目中选择一个".
Definition CANNOT_LIST : string := "无法获取您的项目列表，请手动指定项目ID".
Definition EXCHANGE_FAILED (e : exn) : string := "获取凭证失败: " +:+ str_exn e.

(** The value of the module attribute
    [oauthlib.oauth2.rfc6749.parameters.validate_token_parameters]: the
    library's function, or a [patched_validate] closure around an earlier
    value. *)
Inductive validator :=
| Library
| Patched (original_validate : validator).

(** Calling the validator on a token response for which the library's own
    function raises [complaint] (or returns, for [None]).  [patched_validate]
    swallows a [Warning] and nothing else. *)
Fixpoint call_validator (v : validator) (complaint : option exn) : res unit :=
  match v with
  | Library =>
      match complaint with
      | Some e => Raise e
      | None => Ok ()
      end
  | Patched original_validate =>
      match call_validator original_validate complaint with
      | Raise (Warning _) => Ok ()
      | r => r
      end
  end.

(** The provider and the machine, as the completion functions meet them. *)
Record provider := Provider {
  (** the result of [auto_detect_project_id()], which catches what its two
      probes raise *)
  auto_detect_project_id : option string;
  (** the token endpoint, asked with a flow (its redirect URI) and a code:
      the credentials it grants and what the library's validation has to say
      about the response, or the failure of the request *)
  token_endpoint : string → string → res (credentials * option exn);
  (** the result of [get_user_projects(credentials)], which catches what the
      listing raises *)
  get_user_projects : credentials → list project;
  (** [int(time.time())] when the credential is saved *)
  save_time : N;
  CREDENTIALS_DIR : string
}.

Record process := Process {
  flows : world;
  validate_token_parameters : validator;
  disk : filesystem
}.

(** [flow.fetch_token(code=auth_code); credentials = flow.credentials] under
    the validator currently installed *)
Definition fetch_token (P : provider) (v : validator) (flow auth_code : string)
  : res credentials :=
  let? reply := token_endpoint P flow auth_code in
  let? _ := call_validator v reply.2 in
  Ok reply.1.

(** Statements of a function body: a statement falls through to the next one
    with a value, returns from the function, raises, or (a loop cut short by
    its fuel) does not finish. *)
Inductive outcome (A : Type) :=
| Next (a : A)
| Return (r : auth_result)
| Throw (e : exn)
| Unfinished.
Arguments Next {A} a.
Arguments Return {A} r.
Arguments Throw {A} e.
Arguments Unfinished {A}.

Definition M (A : Type) : Type := process → outcome A * process.

Definition next {A} (a : A) : M A := fun p => (Next a, p).
Definition return_ {A} (r : auth_result) : M A := fun p => (Return r, p).
Definition and_then {A B} (m : M A) (k : A → M B) : M B :=
  fun p =>
    match m p with
    | (Next a, p) => k a p
    | (Return r, p) => (Return r, p)
    | (Throw e, p) => (Throw e, p)
    | (Unfinished, p) => (Unfinished, p)
    end.

Notation "'let!' x := m 'in' k" := (and_then m (fun x => k))
  (at level 10, x pattern, m at level 100, k at level 200).
Notation "m ;;; k" := (and_then m (fun _ => k))
  (at level 100, k at level 200, right associativity).

(** reading and changing the flow store *)
Definition get_flows : M world := fun p => (Next (flows p), p).
Definition on_flows (f : world → world) : M unit :=
  fun p => (Next (), Process (f (flows p)) (validate_token_parameters p) (disk p)).
(** the dict object behind a reference, as it is now *)
Definition load (a : nat) : M flow_data.t := fun p => (Next (deref (flows p) a), p).
Definition of_res {A} (r : res A) : M A :=
  fun p => match r with Ok a => (Next a, p) | Raise e => (Throw e, p) end.
Definition when (b : bool) (m : M unit) : M unit := if b then m else next ().

(** [try: m  except Exception as e: handler(e)] *)
Definition try_except {A} (m : M A) (handler : exn → M A) : M A :=
  fun p =>
    match m p with
    | (Throw e, p) => handler e p
    | r => r
    end.

(** [try: m  finally: f] *)
Definition try_finally {A} (m : M A) (f : process → process) : M A :=
  fun p => let '(o, p) := m p in (o, f p).

Definition set_validator (v : validator) (p : process) : process :=
  Process (flows p) v (disk p).

(** the validator installed now *)
Definition get_validator : M validator :=
  fun p => (Next (validate_token_parameters p), p).

(** [file_path = save_credentials(credentials, project_id)] *)
Definition save (P : provider) (credentials : credentials) (project_id : string) : M string :=
  fun p =>
    match save_credentials (CREDENTIALS_DIR P) credentials project_id (save_time P) (disk p) with
    | Ok (file_path, fs) => (Next file_path, Process (flows p) (validate_token_parameters p) fs)
    | Raise e => (Throw e, p)
    end.

(** [auth_code = wait_for_callback_sync(state)], with the default timeout *)
Definition wait (state : string) (sch : schedule) (fuel : nat) : M (option string) :=
  fun p =>
    match wait_for_callback_sync state 300 sch fuel (flows p) with
    | Some (Ok auth_code, w) => (on_flows (fun _ => w);;; next auth_code) p
    | Some (Raise e, w) => (on_flows (fun _ => w);;; of_res (Raise e)) p
    | None => (Unfinished, p)
    end.

(** [state] in [if not state] *)
Definition found_state (found : option (string * nat)) : option string := fst <$> found.

(** The first lookup loop: flows registered for [project_id], a flow of the
    caller's session first *)
Fixpoint find_by_project (project_id : string) (user_session : option string) (w : world)
    (items : list (string * nat)) (found : option (string * nat))
  : res (option (string * nat)) :=
  match items with
  | [] => Ok found
  | (s, a) :: items' =>
      let data := deref w a in
      match flow_data.project_id data with
      | None => Raise (KeyError "project_id")
      | Some data_project_id =>
          if bool_decide (data_project_id = Some project_id) then
            if truthy user_session
               && bool_decide (flow_data.get_user_session data = user_session)
            then Ok (Some (s, a))
            else if negb (truthy (found_state found))
            then find_by_project project_id user_session w items' (Some (s, a))
            else find_by_project project_id user_session w items' found
          else find_by_project project_id user_session w items' found
      end
  end.

(** The second lookup loop: flows that need their project detected *)
Fixpoint find_auto_detect (user_session : option string) (w : world)
    (items : list (string * nat)) (found : option (string * nat))
  : option (string * nat) :=
  match items with
  | [] => found
  | (s, a) :: items' =>
      let data := deref w a in
      if default false (flow_data.auto_project_detection data) then
        if truthy user_session
           && bool_decide (flow_data.get_user_session data = user_session)
        then Some (s, a)
        else if negb (truthy (found_state found))
        then find_auto_detect user_session w items' (Some (s, a))
        else find_auto_detect user_session w items' found
      else find_auto_detect user_session w items' found
  end.

(** Both loops, up to [if not state or not flow_data] *)
Definition find_flow (project_id user_session : option string) (w : world)
  : res (option (string * nat)) :=
  let? found :=
    if truthy project_id
    then find_by_project (default "" project_id) user_session w (auth_flows w) None
    else Ok None in
  let found :=
    if negb (truthy (found_state found))
    then find_auto_detect user_session w (auth_flows w) found
    else found in
  match found with
  | Some (state, flow_data) =>
      if negb (truthy (Some state)) || negb (flow_data.nonempty (deref w flow_data))
      then Ok None else Ok found
  | None => Ok None
  end.

(** [a or b] on optional strings *)
Definition or_else (a b : option string) : option string := if truthy a then a else b.

Definition to_available (p : project) : available_project :=
  AvailableProject (projectId p) (or_else (displayName p) (projectId p)) (projectNumber p).

(** The listing branch of both completion functions, taken when the flow
    needs its project detected and none is known after the exchange: the
    project id that it settles on, or the result that it returns with. *)
Definition resolve_listed (user_projects : list project) : option string + auth_result :=
  match user_projects with
  | [] => inr (AuthFailure CANNOT_LIST true)
  | [only] => inl (projectId only)
  | _ =>
      let project_id := select_default_project user_projects in
      if truthy project_id then inl project_id
      else inr (AuthSelection SELECT_PROJECT (to_available <$> user_projects))
  end.

(** The listing branch followed by [if not project_id: return ...] *)
Definition project_from_listing (user_projects : list project) : string + auth_result :=
  match resolve_listed user_projects with
  | inl project_id =>
      if truthy project_id then inl (default "" project_id)
      else inr (AuthFailure MISSING_PROJECT true)
  | inr r => inr r
  end.

(** [await enable_required_apis(credentials, project_id)]: catches what it
    raises, and its result is not used. *)
Definition enable_required_apis (project_id : string) : M unit :=
  on_flows (fun w => World (heap w) (auth_flows w) (trace w ++ [EnableApis project_id])).

(** The body of the [try] of both completion functions; [enable_apis]
    distinguishes the cooperative variant, which enables the services of the
    project it settles on. *)
Definition exchange_and_save (P : provider) (enable_apis : bool) (state : string)
    (flow_data : nat) (flow auth_code : string) (project_id : option string)
  : M auth_result :=
  let! v := get_validator in
  let! credentials := of_res (fetch_token P v flow auth_code) in
  let! d := load flow_data in
  let! project_id :=
    if default false (flow_data.auto_project_detection d) && negb (truthy project_id) then
      match resolve_listed (get_user_projects P credentials) with
      | inl project_id =>
          when (truthy project_id)
            (on_flows (mutate flow_data (flow_data.set_project_id project_id));;;
             when enable_apis (enable_required_apis (default "" project_id)));;;
          next project_id
      | inr r => return_ r
      end
    else
      when (enable_apis && truthy project_id)
        (enable_required_apis (default "" project_id));;;
      next project_id in
  if negb (truthy project_id) then return_ (AuthFailure MISSING_PROJECT true) else
  let project_id := default "" project_id in
  let! file_path := save P credentials project_id in
  let creds_data := creds_data credentials project_id in
  let! w := get_flows in
  when (dict_in state (auth_flows w))
    (let! flow_data_to_clean := of_res (getitem state w) in
     on_flows (fun w => del_flow state (shutdown_if_server (deref w flow_data_to_clean) w)));;;
  let! d := load flow_data in
  return_ (AuthSuccess creds_data (basename file_path)
             (default false (flow_data.auto_project_detection d))).

(** From [original_validate = ...] to the end of the [finally] *)
Definition patched_exchange (P : provider) (enable_apis : bool) (state : string)
    (flow_data : nat) (flow auth_code : string) (project_id : option string)
  : M auth_result :=
  fun p =>
    let original_validate := validate_token_parameters p in
    let p := set_validator (Patched original_validate) p in
    try_finally
      (try_except
         (exchange_and_save P enable_apis state flow_data flow auth_code project_id)
         (fun e => return_ (AuthFailure (EXCHANGE_FAILED e) false)))
      (set_validator original_validate) p.

(** What the caller of a completion function gets: the outermost
    [except Exception as e] turns an exception into a failure result. *)
Definition result_of (o : outcome auth_result) : option auth_result :=
  match o with
  | Next r | Return r => Some r
  | Throw e => Some (AuthFailure (str_exn e) false)
  | Unfinished => None
  end.

(** [flow_data['flow']], [flow_data['code']] *)
Definition flow_entry (d : flow_data.t) : res string :=
  match flow_data.flow d with
  | Some f => Ok f
  | None => Raise (KeyError "flow")
  end.

(** [complete_auth_flow(project_id, user_session)], the blocking variant.
    [sch] and [fuel] are those of its call of [wait_for_callback_sync]. *)
Definition complete_auth_flow (P : provider) (sch : schedule) (fuel : nat)
    (project_id user_session : option string) (p : process)
  : option auth_result * process :=
  let body : M auth_result :=
    let! w := get_flows in
    let! found := of_res (find_flow project_id user_session w) in
    match found with
    | None => return_ (AuthFailure NO_FLOW false)
    | Some (state, flow_data) =>
        let! d := load flow_data in
        let! project_id :=
          if default false (flow_data.auto_project_detection d) && negb (truthy project_id) then
            let detected_project_id := auto_detect_project_id P in
            if truthy detected_project_id then
              on_flows (mutate flow_data (flow_data.set_project_id detected_project_id));;;
              next detected_project_id
            else return_ (AuthFailure CANNOT_DETECT true)
          else if negb (truthy project_id) then
            let project_id := flow_data.get_project_id d in
            if negb (truthy project_id) then return_ (AuthFailure MISSING_PROJECT true)
            else next project_id
          else next project_id in
        let! d := load flow_data in
        let! flow := of_res (flow_entry d) in
        let! auth_code :=
          if negb (truthy (flow_data.get_code d)) then
            let! auth_code := wait state sch fuel in
            if negb (truthy auth_code)
            then return_ (AuthFailure NO_CALLBACK false)
            else
              let! w := get_flows in
              let! a := of_res (getitem state w) in
              on_flows (mutate a (flow_data.set_code auth_code));;;
              let! w := get_flows in
              let! a := of_res (getitem state w) in
              on_flows (mutate a (flow_data.set_completed true));;;
              next (default "" auth_code)
          else next (default "" (flow_data.get_code d)) in
        patched_exchange P false state flow_data flow auth_code project_id
    end in
  let '(o, p) := body p in
  (result_of o, p).

(** The polling loop of [asyncio_complete_auth_flow]: [n] turns are left,
    [waited] seconds have passed. *)
Fixpoint poll (state : string) (sch : schedule) (n waited flow_data : nat) (w : world)
  : nat * world :=
  match n with
  | O => (flow_data, w)
  | S n' =>
      if truthy (flow_data.get_code (deref w flow_data)) then (flow_data, w)
      else
        let w := sleep sch waited w in
        let flow_data := default flow_data (dict_get state (auth_flows w)) in
        poll state sch n' (S waited) flow_data w
  end.

(** [asyncio_complete_auth_flow(project_id, user_session)], the cooperative
    variant *)
Definition asyncio_complete_auth_flow (P : provider) (sch : schedule)
    (project_id user_session : option string) (p : process)
  : option auth_result * process :=
  let body : M auth_result :=
    let! w := get_flows in
    let! found := of_res (find_flow project_id user_session w) in
    match found with
    | None => return_ (AuthFailure NO_FLOW false)
    | Some (state, flow_data) =>
        let! d := load flow_data in
        let! project_id :=
          if default false (flow_data.auto_project_detection d) && negb (truthy project_id) then
            let detected_project_id := auto_detect_project_id P in
            if truthy detected_project_id then
              on_flows (mutate flow_data (flow_data.set_project_id detected_project_id));;;
              next detected_project_id
            else next project_id
          else if negb (truthy project_id) then
            let project_id := flow_data.get_project_id d in
            if negb (truthy project_id) then return_ (AuthFailure MISSING_PROJECT true)
            else next project_id
          else next project_id in
        let max_wait_time := 60%nat in
        let! w := get_flows in
        let '(flow_data, w) := poll state sch max_wait_time 0 flow_data w in
        on_flows (fun _ => w);;;
        let! d := load flow_data in
        if negb (truthy (flow_data.get_code d))
        then return_ (AuthFailure CALLBACK_TIMEOUT false)
        else
          let! flow := of_res (flow_entry d) in
          let auth_code := default "" (flow_data.get_code d) in
          patched_exchange P true state flow_data flow auth_code project_id
    end in
  let '(o, p) := body p in
  (result_of o, p).

(** ** Vocabulary of the properties *)

Definition raises {A} (r : res A) : Prop := ∃ e, r = Raise e.

(** The age of the flow behind a table entry at [current_time], and whether
    the sweep of that time finds it expired. *)
Definition age (current_time : Z) (w : world) (item : string * nat) : Z :=
  current_time - created_at_key w item.

Definition is_expired (current_time : Z) (w : world) (item : string * nat) : Prop :=
  age current_time w item > EXPIRY_TIME.

#[global] Instance is_expired_dec current_time w item : Decision (is_expired current_time w item).
Proof. unfold is_expired. apply _. Defined.

(** What a teardown of a table entry logs: the shutdown of its listener,
    then the deletion of its key. *)
Definition teardown_events (w : world) (item : string * nat) : list event :=
  match flow_data.server (deref w item.2) with
  | Some srv => [Shutdown srv (flow_data.callback_port (deref w item.2))]
  | None => []
  end ++ [Del item.1].

(** The stores that the module builds: states and dict objects are not
    shared between entries, and every entry has its record with a creation
    time. *)
Record well_formed (w : world) : Prop := WellFormed {
  wf_states : NoDup (auth_flows w).*1;
  wf_objects : NoDup (auth_flows w).*2;
  wf_created : ∀ item, item ∈ auth_flows w →
    ∃ d, heap w !! item.2 = Some d ∧ is_Some (flow_data.created_at d)
}.

(** A waiter's reference [a] to the record of the flow [state]: the flow is
    registered with that record, or it is not registered and the record,
    cleared, is referenced by no flow. *)
Definition held (state : string) (a : nat) (w : world) : Prop :=
  well_formed w
  ∧ ((state, a) ∈ auth_flows w
     ∨ ((state ∉ (auth_flows w).*1) ∧ (a ∉ (auth_flows w).*2)
        ∧ heap w !! a = Some flow_data.empty)).

(** A statement that leaves the module attribute
    [validate_token_parameters] as it found it *)
Definition keeps_validator {A} (m : M A) : Prop :=
  ∀ p, validate_token_parameters (m p).2 = validate_token_parameters p.

(** ** Sample data *)

(** A flow as [create_auth_url] registers it, for a listener on [port]. *)
Definition sample_flow (port : Z) (srv : nat) (created : Z) : flow_data.t :=
  {| flow_data.flow := Some ("http://localhost:" +:+ str_int port);
     flow_data.project_id := Some None;
     flow_data.user_session := Some None;
     flow_data.callback_port := Some port;
     flow_data.callback_url := Some ("http://localhost:" +:+ str_int port);
     flow_data.server := Some srv;
     flow_data.server_thread := Some srv;
     flow_data.code := Some None;
     flow_data.completed := Some false;
     flow_data.created_at := Some created;
     flow_data.auto_project_detection := Some true |}.

(** A store with one pending flow, created at time 1000 *)
Definition one_flow : world := World [sample_flow 8080 1 1000] [("S", 0%nat)] [].

(** A machine on which every port binds and every listener starts, and one
    on which no socket can be bound *)
Definition good_platform : platform :=
  Platform 8080 (fun _ => true) (Ok 49152) (fun port => Ok (Z.to_nat port))
    (fun srv => Ok srv) (fun redirect state => Ok ("https://accounts.google.com/o/oauth2/auth?state=" +:+ state))
    "123e4567-e89b-42d3-a456-426614174000".

Definition no_ports : platform :=
  Platform 8080 (fun _ => false) (Raise (OSError "Too many open files"))
    (fun port => Ok (Z.to_nat port)) (fun srv => Ok srv)
    (fun redirect state => Ok ("https://accounts.google.com/o/oauth2/auth?state=" +:+ state))
    "123e4567-e89b-42d3-a456-426614174000".

(** A store with an old and a recent pending flow *)
Definition two_flows : world :=
  World [sample_flow 8080 1 1000; sample_flow 8081 2 1500]
        [("old", 0%nat); ("new", 1%nat)] [].

(** A store with [n] pending flows, each a second younger than the one
    before *)
Definition many_flows (n : nat) : world :=
  World ((fun i => sample_flow (8080 + Z.of_nat i) i (1000 + Z.of_nat i)) <$> seq 0 n)
        ((fun i => ("flow-" +:+ str_N (N.of_nat i), i)) <$> seq 0 n) [].

(** Providers that grant the sample credentials, with what the library's
    validation says of the response and with a listing of projects, and one
    that refuses the code *)
Definition sample_credentials : credentials :=
  Credentials "ya29.a0AfH6SMB" (Some "1//0gLhj") None None.

Definition granting (complaint : option exn) (listing : list project) : provider :=
  Provider None (fun _ _ => Ok (sample_credentials, complaint)) (fun _ => listing)
    1700000000 "creds".

Definition refusing : provider :=
  Provider None (fun _ _ => Raise (Exception "invalid_grant")) (fun _ => [])
    1700000000 "creds".

Definition two_plain_projects : list project :=
  [ Project (Some "alpha-123") (Some "Alpha") (Some "1");
    Project (Some "beta-456") (Some "Beta") (Some "2") ].

(** A process with the library's validator and an empty credentials
    directory *)
Definition sample_process (w : world) : process :=
  Process w Library (Filesystem ∅ (fun _ => None)).

(** A waiter's schedule on which a sweep at time 2000 runs during the first
    sleep, and nothing else happens; the clock advances a second a turn *)
Definition swept_at_first : schedule :=
  busy (fun i => 2000 + Z.of_nat i) (fun i => match i with O => [Sweep 2000] | _ => [] end).

(** A waiter's schedule on which nothing else happens: the clock advances a
    second a turn from 2000 *)
Definition idle : schedule := Schedule (fun i => 2000 + Z.of_nat i) (fun _ w => w).

(** The parsed query of [GET /?code=<code>&state=<state>] *)
Definition callback_query (code state : string) : gmap string (list string) :=
  <["code" := [code]]> (<["state" := [state]]> ∅).

(** A waiter's schedule on which the code arrives during the second sleep *)
Definition callback_at_second : schedule :=
  busy (fun i => 2000 + Z.of_nat i)
    (fun i => match i with 1%nat => [Callback (callback_query "4/0AbUR2VM" "S")] | _ => [] end).

(** The store after the sweep of the one flow of [one_flow] *)
Definition swept_store : world :=
  World [flow_data.empty] [] [Shutdown 1 (Some 8080); Del "S"].

(* ================================================================= *)
(** * Properties *)

(** ** Dicts *)

Section dict_facts.
Context {V : Type}.
Implicit Types (d : list (string * V)) (k : string).

Lemma dict_in_get k d : dict_in k d = true ↔ is_Some (dict_get k d).
Proof. unfold dict_in. by rewrite bool_decide_eq_true. Qed.

Lemma dict_in_None k d : dict_get k d = None → dict_in k d = false.
Proof.
    intros H. unfold dict_in. rewrite H.
    apply bool_decide_eq_false. by intros [? ?].
Qed.

Lemma dict_in_Some k d v : dict_get k d = Some v → dict_in k d = true.
Proof. intros H. apply dict_in_get. by exists v. Qed.
End dict_facts.

(** ** The callback listener *)

Section callback_listener.
Implicit Types (w : world) (q : gmap string (list string)).

Lemma truthy_Some (x : string) : x ≠ "" → truthy (Some x) = true.
Proof. intros H. simpl. by apply bool_decide_eq_true. Qed.

Lemma truthy_inv (o : option string) :
    truthy o = true → ∃ x, o = Some x ∧ x ≠ "".
Proof.
    destruct o as [x|]; simpl; [|done].
    rewrite bool_decide_eq_true. eauto.
Qed.

Lemma deref_lookup w a d : heap w !! a = Some d → deref w a = d.
Proof. intros H. unfold deref. by rewrite H. Qed.

  (** C8. A GET whose [state] names no flow of the store, or that carries no
      [code], is answered with the 400 page and leaves the whole store as it
      was: no flow record, no table entry and no logged effect changes. *)
Theorem do_GET_unmatched_changes_nothing q w :
    (first_value "code" q = None
     ∨ ∀ s, first_value "state" q = Some s → dict_get s (auth_flows w) = None) →
    do_GET q w = (failure_page, w) ∧ status (do_GET q w).1 = 400.
Proof.
    intros H.
    assert (do_GET q w = (failure_page, w)) as ->; [|done].
    unfold do_GET.
    destruct (first_value "state" q) as [s|] eqn:Hs; [|done].
    destruct H as [-> | H].
    - done.
    - rewrite (dict_in_None s _ (H s eq_refl)).
      by rewrite andb_false_r.
Qed.

Lemma do_GET_unmatched_changes_nothing_witness :
    (first_value "code" (callback_query "X" "T") = None
     ∨ ∀ s, first_value "state" (callback_query "X" "T") = Some s →
            dict_get s (auth_flows one_flow) = None)
    ∧ do_GET (callback_query "X" "T") one_flow = (failure_page, one_flow)
    ∧ status (do_GET (callback_query "X" "T") one_flow).1 = 400.
Proof.
    assert (first_value "code" (callback_query "X" "T") = None
            ∨ ∀ s, first_value "state" (callback_query "X" "T") = Some s →
                   dict_get s (auth_flows one_flow) = None) as H.
    { right. intros s Hs. vm_compute in Hs. injection Hs as <-. reflexivity. }
    exact (conj H (do_GET_unmatched_changes_nothing _ _ H)).
Defined.

  (** C1, amended.  A GET with a non-empty [code] X and the [state] S of a
      registered flow is answered with the 200 page and sets that flow's
      ['code'] to X and its ['completed'] to [True], whatever the code was
      before: a later callback for S replaces the code of an earlier one.
      Nothing else in the store changes. *)
Theorem do_GET_sets_code q w s x a d :
    first_value "code" q = Some x → x ≠ "" →
    first_value "state" q = Some s → s ≠ "" →
    dict_get s (auth_flows w) = Some a → heap w !! a = Some d →
    ∃ w', do_GET q w = (success_page, w')
      ∧ flow_of s w' = Some (flow_data.set_completed true (flow_data.set_code (Some x) d))
      ∧ flow_data.get_code <$> flow_of s w' = Some (Some x)
      ∧ auth_flows w' = auth_flows w ∧ trace w' = trace w
      ∧ length (heap w') = length (heap w)
      ∧ ∀ b, b ≠ a → heap w' !! b = heap w !! b.
Proof.
    intros Hc Hx Hs Hs' Ha Hd.
    unfold do_GET. rewrite Hc, Hs.
    rewrite !truthy_Some by done. rewrite (dict_in_Some _ _ _ Ha). simpl.
    unfold getitem. rewrite Ha.
    eexists. split; [reflexivity|].
    assert (flow_of s (mutate a (flow_data.set_completed true)
                         (mutate a (flow_data.set_code (Some x)) w))
            = Some (flow_data.set_completed true (flow_data.set_code (Some x) d))) as Hf.
    { unfold flow_of, mutate. simpl. rewrite Ha. simpl.
      rewrite !list_lookup_alter_eq. by rewrite Hd. }
    rewrite Hf. repeat split; try done.
    - simpl. by rewrite !length_alter.
    - intros b Hb. simpl. by rewrite !list_lookup_alter_ne.
Qed.

Lemma do_GET_sets_code_witness :
    ∃ w', do_GET (callback_query "X" "S") one_flow = (success_page, w')
      ∧ flow_of "S" w'
        = Some (flow_data.set_completed true
                  (flow_data.set_code (Some "X") (sample_flow 8080 1 1000)))
      ∧ flow_data.get_code <$> flow_of "S" w' = Some (Some "X")
      ∧ auth_flows w' = auth_flows one_flow ∧ trace w' = trace one_flow
      ∧ length (heap w') = length (heap one_flow)
      ∧ ∀ b, b ≠ 0%nat → heap w' !! b = heap one_flow !! b.
Proof.
    apply (do_GET_sets_code (callback_query "X" "S") one_flow "S" "X" 0
             (sample_flow 8080 1 1000)); try reflexivity; discriminate.
Defined.

  (** C1 as stated fails: after the callback [code=X&state=S] has set the
      code of S, the callback [code=Y&state=S] overwrites it with Y. *)
Lemma do_GET_second_callback_overwrites :
    let w1 := (do_GET (callback_query "X" "S") one_flow).2 in
    let w2 := (do_GET (callback_query "Y" "S") w1).2 in
    flow_data.get_code <$> flow_of "S" one_flow = Some None
    ∧ flow_data.get_code <$> flow_of "S" w1 = Some (Some "X")
    ∧ flow_data.get_code <$> flow_of "S" w2 = Some (Some "Y")
    ∧ flow_data.get_code <$> flow_of "S" w2 ≠ flow_data.get_code <$> flow_of "S" w1.
Proof. vm_compute. repeat split. discriminate. Qed.

End callback_listener.

(** ** The authorization-URL builder *)

Section builder.
Implicit Types (w : world) (P : platform).

(** C2. When no port can be allocated, or the listener cannot be started on
    the allocated port, [create_auth_url] returns a failure result with an
    error message, and the flow store is exactly as it was before the call. *)
Theorem create_auth_url_failure_registers_nothing P project_id user_session created swept w :
  raises (find_available_port P)
  ∨ (∃ port, find_available_port P = Ok port ∧ raises (start_listener P port)) →
  ∃ error,
    create_auth_url P project_id user_session created swept w = (AuthUrlError error, w).
Proof.
  intros [[e He] | (port & Hport & [e He])]; unfold create_auth_url.
  - rewrite He. eauto.
  - rewrite Hport, He. eauto.
Qed.

Lemma create_auth_url_failure_registers_nothing_witness :
  (raises (find_available_port no_ports)
   ∨ (∃ port, find_available_port no_ports = Ok port ∧ raises (start_listener no_ports port)))
  ∧ ∃ error,
      create_auth_url no_ports None (Some "alice") 1000 1000 one_flow
      = (AuthUrlError error, one_flow).
Proof.
  assert (raises (find_available_port no_ports)
          ∨ (∃ port, find_available_port no_ports = Ok port
                     ∧ raises (start_listener no_ports port))) as H.
  { left. eexists. vm_compute. reflexivity. }
  exact (conj H (create_auth_url_failure_registers_nothing no_ports None (Some "alice")
                   1000 1000 one_flow H)).
Defined.

End builder.

(** ** Expiry *)

Section dict_order.
Context {V : Type}.
Implicit Types (d : list (string * V)) (k : string).

Lemma dict_get_elem_of k v d : dict_get k d = Some v → (k, v) ∈ d.
Proof.
  induction d as [|[k' v'] d IH]; simpl; [done|].
  case_decide as Hk.
  - intros [= ->]. subst. left.
  - intros H. right. auto.
Qed.

Lemma dict_get_not_in k d : k ∉ d.*1 → dict_get k d = None.
Proof.
  induction d as [|[k' v'] d IH]; simpl; [done|].
  rewrite not_elem_of_cons. intros [Hk Hd].
  case_decide; [done|auto].
Qed.

Lemma elem_of_dict_get k v d : NoDup d.*1 → (k, v) ∈ d → dict_get k d = Some v.
Proof.
  induction d as [|[k' v'] d IH]; simpl.
  - intros _ H. by apply elem_of_nil in H.
  - rewrite NoDup_cons. intros [Hk' Hd] [H|H]%elem_of_cons.
    + injection H as -> ->. by rewrite decide_True.
    + case_decide as Hk; [|auto]. subst k'.
      exfalso. apply Hk'. apply list_elem_of_fmap. by exists (k, v).
Qed.

Lemma dict_del_filter k d :
  NoDup d.*1 → dict_del k d = filter (fun item => item.1 ≠ k) d.
Proof.
  induction d as [|[k' v'] d IH]; simpl; [done|].
  rewrite NoDup_cons. intros [Hk' Hd].
  case_decide as Hk.
  - subst k'. rewrite filter_cons_False by (simpl; tauto).
    symmetry. clear IH Hd. induction d as [|[k'' v''] d IH]; [done|].
    rewrite fmap_cons, not_elem_of_cons in Hk'. destruct Hk' as [Hne Hk'].
    simpl in Hne. rewrite filter_cons_True by (simpl; congruence). f_equal. auto.
  - rewrite filter_cons_True by (simpl; congruence). f_equal. auto.
Qed.

Lemma dict_get_del_ne k k' d : k ≠ k' → dict_get k (dict_del k' d) = dict_get k d.
Proof.
  intros Hne. induction d as [|[k'' v''] d IH]; simpl; [done|].
  destruct (decide (k' = k'')) as [->|Hk'].
  - by rewrite decide_False.
  - simpl. by rewrite IH.
Qed.

Lemma NoDup_keys_filter (P : string * V → Prop) `{!∀ x, Decision (P x)} d :
  NoDup d.*1 → NoDup (filter P d).*1.
Proof.
  intros Hd. eapply sublist_NoDup; [exact Hd|].
  apply fmap_sublist, sublist_filter.
Qed.

Lemma foldl_dict_del_filter ks d :
  NoDup d.*1 →
  foldl (fun t s => dict_del s t) d ks = filter (fun item => item.1 ∉ ks) d.
Proof.
  revert d. induction ks as [|k ks IH]; intros d Hd; simpl.
  - clear Hd. induction d as [|x d IHd]; [done|].
    rewrite filter_cons_True by apply not_elem_of_nil. by f_equal.
  - rewrite dict_del_filter by done.
    rewrite IH by (by apply (NoDup_keys_filter (fun item => item.1 ≠ k))).
    rewrite list_filter_filter. apply list_filter_iff.
    intros x. rewrite not_elem_of_cons. tauto.
Qed.

Lemma NoDup_keys_eq k v1 v2 d :
  NoDup d.*1 → (k, v1) ∈ d → (k, v2) ∈ d → v1 = v2.
Proof.
  intros Hd H1 H2.
  apply (elem_of_dict_get _ _ _ Hd) in H1, H2. congruence.
Qed.
Lemma dict_set_keys k (v : V) d :
  (dict_set k v d).*1 = if decide (k ∈ d.*1) then d.*1 else d.*1 ++ [k].
Proof.
  induction d as [|[k' v'] d IH].
  { cbn [dict_set]. rewrite decide_False; [done|]. rewrite fmap_nil. apply not_elem_of_nil. }
  cbn [dict_set]. destruct (decide (k = k')) as [Hk|Hk].
  - subst. rewrite !fmap_cons. cbn [fst].
    destruct (decide (k' ∈ k' :: d.*1)) as [|Hn]; [done|]. exfalso. apply Hn. left.
  - rewrite !fmap_cons, IH. cbn [fst].
    destruct (decide (k ∈ d.*1)) as [Hin|Hin], (decide (k ∈ k' :: d.*1)) as [Hin'|Hin'];
      try done.
    + exfalso. apply Hin'. by right.
    + exfalso. apply elem_of_cons in Hin' as [?|?]; done.
Qed.

Lemma dict_set_elem_of k (v : V) d item :
  item ∈ dict_set k v d → item = (k, v) ∨ item ∈ d.
Proof.
  induction d as [|[k' v'] d IH]; cbn [dict_set].
  { intros ->%list_elem_of_singleton. by left. }
  case_decide as Hk.
  - intros [->|Hin]%elem_of_cons; [by left|]. right. by right.
  - intros [->|Hin]%elem_of_cons; [right; left|].
    destruct (IH Hin) as [->|?]; [by left|]. right. by right.
Qed.

Lemma dict_set_NoDup_keys k (v : V) d : NoDup d.*1 → NoDup (dict_set k v d).*1.
Proof.
  intros Hd. rewrite dict_set_keys. case_decide as Hk; [done|].
  apply NoDup_app. repeat split; [done| |apply NoDup_singleton].
  intros x Hx ->%list_elem_of_singleton. done.
Qed.

Lemma dict_set_NoDup_values k (v : V) d :
  v ∉ d.*2 → NoDup d.*2 → NoDup (dict_set k v d).*2.
Proof.
  induction d as [|[k' v'] d IH]; cbn [dict_set]; intros Hv Hd.
  { apply NoDup_singleton. }
  rewrite fmap_cons in Hv, Hd. cbn [snd] in Hv, Hd.
  apply not_elem_of_cons in Hv as [Hne Hv]. apply NoDup_cons in Hd as [Hv' Hd].
  case_decide as Hk; rewrite fmap_cons; cbn [snd]; apply NoDup_cons.
  - done.
  - split; [|by apply IH].
    intros ([k'' v''] & Heq & Hin%dict_set_elem_of)%list_elem_of_fmap.
    cbn [snd] in Heq. subst v''. destruct Hin as [[= _ ->]|Hin]; [done|].
    apply Hv'. apply list_elem_of_fmap. by exists (k'', v').
Qed.

End dict_order.

Lemma filter_iff_elem_of {A} (P Q : A → Prop) `{!∀ x, Decision (P x), !∀ x, Decision (Q x)}
    (l : list A) :
  (∀ x, x ∈ l → P x ↔ Q x) → filter P l = filter Q l.
Proof.
  induction l as [|x l IH]; intros HPQ; [done|].
  rewrite !filter_cons.
  rewrite IH by (intros y Hy; apply HPQ; by right).
  apply decide_ext, HPQ. left.
Qed.

Lemma NoDup_fmap_eq {A B} (f : A → B) (l : list A) x y :
  NoDup (f <$> l) → x ∈ l → y ∈ l → f x = f y → x = y.
Proof.
  induction l as [|z l IH]; csimpl; intros Hl Hx Hy Hxy.
  { by apply elem_of_nil in Hx. }
  apply NoDup_cons in Hl as [Hz Hl].
  apply elem_of_cons in Hx as [->|Hx], Hy as [->|Hy]; [done| | |by apply IH].
  - exfalso. apply Hz. rewrite Hxy. by apply list_elem_of_fmap_2.
  - exfalso. apply Hz. rewrite <-Hxy. by apply list_elem_of_fmap_2.
Qed.

Lemma flat_map_elem_split {A B} (f : A → list B) (l : list A) x :
  x ∈ l → ∃ before after, flat_map f l = before ++ f x ++ after.
Proof.
  intros (l1 & l2 & ->)%list_elem_of_split.
  exists (flat_map f l1), (flat_map f l2).
  by rewrite flat_map_app.
Qed.

Section expiry.
Implicit Types (w : world) (item : string * nat) (l : list (string * nat)).

Lemma created_at_key_Some w item d t :
  heap w !! item.2 = Some d → flow_data.created_at d = Some t → created_at_key w item = t.
Proof. intros Hd Ht. unfold created_at_key. by rewrite (deref_lookup _ _ _ Hd), Ht. Qed.

(** The list comprehension selects the states of the expired entries. *)
Lemma states_to_remove_filter now w l :
  (∀ item, item ∈ l → ∃ d, heap w !! item.2 = Some d ∧ is_Some (flow_data.created_at d)) →
  states_to_remove now w l = Ok (filter (is_expired now w) l).*1.
Proof.
  induction l as [|[s a] l IH]; intros Hl; simpl; [done|].
  destruct (Hl (s, a)) as (d & Hd & [t Ht]); [left|]. simpl in Hd.
  rewrite (deref_lookup _ _ _ Hd), Ht.
  rewrite IH by (intros item Hitem; apply Hl; by right). simpl.
  f_equal. rewrite filter_cons.
  assert (is_expired now w (s, a) ↔ now - t > EXPIRY_TIME) as Hiff.
  { unfold is_expired, age. by rewrite (created_at_key_Some w (s, a) d t Hd Ht). }
  case_bool_decide; [rewrite decide_True by tauto | rewrite decide_False by tauto]; done.
Qed.

Lemma deref_mutate_ne w a b f : a ≠ b → deref (mutate a f w) b = deref w b.
Proof. intros H. unfold deref, mutate. simpl. by rewrite list_lookup_alter_ne. Qed.

Lemma remove_expired_present w s a :
  dict_get s (auth_flows w) = Some a → flow_data.nonempty (deref w a) = true →
  remove_expired w s
  = World (alter (fun _ => flow_data.empty) a (heap w)) (dict_del s (auth_flows w))
          (trace w ++ teardown_events w (s, a)).
Proof.
  intros Ha Hne. unfold remove_expired. rewrite Ha, Hne.
  unfold del_flow, clear, mutate, shutdown_if_server, teardown_events. simpl.
  destruct (flow_data.server (deref w a)); simpl; [|done].
  by rewrite <-app_assoc.
Qed.

(** The loop over the states to remove tears down each of them in turn. *)
Lemma foldl_remove_expired l : ∀ w,
  NoDup l.*1 → NoDup l.*2 →
  (∀ item, item ∈ l →
     dict_get item.1 (auth_flows w) = Some item.2
     ∧ flow_data.nonempty (deref w item.2) = true) →
  auth_flows (foldl remove_expired w l.*1)
  = foldl (fun t s => dict_del s t) (auth_flows w) l.*1
  ∧ trace (foldl remove_expired w l.*1) = trace w ++ flat_map (teardown_events w) l
  ∧ heap (foldl remove_expired w l.*1)
    = foldl (fun h a => alter (fun _ => flow_data.empty) a h) (heap w) l.*2.
Proof.
  induction l as [|[s a] l IH]; intros w Hs Ha Hl; csimpl.
  { by rewrite app_nil_r. }
  apply NoDup_cons in Hs as [Hs Hs'], Ha as [Ha Ha'].
  destruct (Hl (s, a)) as [Hget Hne]; [left|]. cbn [fst snd] in Hget, Hne.
  rewrite (remove_expired_present _ _ _ Hget Hne).
  set (w1 := World _ _ _).
  assert (∀ item, item ∈ l → deref w1 item.2 = deref w item.2) as Hsame.
  { intros [s' a'] Hitem. unfold deref, w1. cbn [heap snd].
    rewrite list_lookup_alter_ne; [done|].
    intros ->. apply Ha. apply list_elem_of_fmap. by exists (s', a'). }
  destruct (IH w1 Hs' Ha') as (IH1 & IH2 & IH3).
  { intros [s' a'] Hitem. rewrite (Hsame _ Hitem).
    destruct (Hl (s', a')) as [Hget' Hne']; [by right|]. cbn [fst snd] in *.
    split; [|done]. unfold w1; cbn [auth_flows]. rewrite dict_get_del_ne; [done|].
    intros ->. apply Hs. apply list_elem_of_fmap. by exists (s, a'). }
  rewrite IH1, IH2, IH3. unfold w1; cbn [auth_flows heap trace]. repeat split.
  rewrite <-app_assoc. f_equal. f_equal.
  clear -Hsame. induction l as [|item l IHl]; [done|]. csimpl.
  f_equal.
  - unfold teardown_events. rewrite Hsame by left. done.
  - apply IHl. intros it Hit. apply Hsame. by right.
Qed.

Lemma lookup_foldl_clear (addrs : list nat) : ∀ (h : list flow_data.t) b,
  foldl (fun h a => alter (fun _ => flow_data.empty) a h) h addrs !! b
  = if decide (b ∈ addrs) then (fun _ => flow_data.empty) <$> h !! b else h !! b.
Proof.
  induction addrs as [|a addrs IH]; intros h b; cbn [foldl].
  { rewrite decide_False; [done|apply not_elem_of_nil]. }
  rewrite IH. destruct (decide (a = b)) as [->|Hab].
  - rewrite list_lookup_alter_eq, (decide_True (P := b ∈ b :: addrs)) by left.
    destruct (decide _); [|done]. by destruct (h !! b).
  - rewrite list_lookup_alter_ne by done.
    destruct (decide (b ∈ addrs)).
    + rewrite decide_True; [done|by right].
    + rewrite decide_False; [done|]. rewrite not_elem_of_cons. split; congruence.
Qed.

(** What a sweep of a well-formed store does. *)
Lemma cleanup_expired_flows_spec now w :
  well_formed w →
  ∃ w', cleanup_expired_flows now w = Ok w'
    ∧ auth_flows w' = filter (fun item => ¬ is_expired now w item) (auth_flows w)
    ∧ trace w' = trace w ++ flat_map (teardown_events w) (filter (is_expired now w) (auth_flows w))
    ∧ (∀ b, heap w' !! b
            = if decide (b ∈ (filter (is_expired now w) (auth_flows w)).*2)
              then (fun _ => flow_data.empty) <$> heap w !! b else heap w !! b).
Proof.
  intros [Hs Ha Hc]. unfold cleanup_expired_flows.
  rewrite (states_to_remove_filter now w _ Hc). simpl.
  eexists. split; [reflexivity|].
  set (l := filter (is_expired now w) (auth_flows w)).
  destruct (foldl_remove_expired l w) as (H1 & H2 & H3).
  - by apply NoDup_keys_filter.
  - eapply sublist_NoDup; [exact Ha|]. apply fmap_sublist, sublist_filter.
  - intros [s a] [Hexp Hin]%list_elem_of_filter. simpl. split.
    + by apply elem_of_dict_get.
    + destruct (Hc _ Hin) as (d & Hd & [t Ht]). simpl in Hd.
      rewrite (deref_lookup _ _ _ Hd). apply bool_decide_eq_true.
      intros ->. done.
  - rewrite H1, H2, H3. split; [|split; [done|]].
    + rewrite foldl_dict_del_filter by done. apply filter_iff_elem_of.
      intros [s a] Hin. cbn [fst]. split.
      * intros Hnot Hexp. apply Hnot. apply list_elem_of_fmap.
        exists (s, a). split; [done|]. by apply list_elem_of_filter.
      * intros Hexp ([s' a'] & Heq & [Hexp' Hin']%list_elem_of_filter)%list_elem_of_fmap.
        cbn [fst] in Heq. subst s'.
        by rewrite (NoDup_keys_eq _ _ _ _ Hs Hin Hin') in Hexp.
    + intros b. apply lookup_foldl_clear.
Qed.

Lemma not_expired_le now w item : ¬ is_expired now w item ↔ age now w item ≤ EXPIRY_TIME.
Proof. unfold is_expired. lia. Qed.

(** A sweep keeps a store well formed. *)
Lemma cleanup_expired_flows_well_formed now w w' :
  well_formed w → cleanup_expired_flows now w = Ok w' → well_formed w'.
Proof.
  intros Hwf Hw'.
  destruct (cleanup_expired_flows_spec now w Hwf) as (w'' & Heq & Ht & _ & Hh).
  rewrite Heq in Hw'. injection Hw' as <-.
  destruct Hwf as [Hs Ha Hc]. split; rewrite Ht.
  - by apply NoDup_keys_filter.
  - eapply sublist_NoDup; [exact Ha|]. apply fmap_sublist, sublist_filter.
  - intros item [Hexp Hin]%list_elem_of_filter.
    rewrite Hh, decide_False; [by apply Hc|].
    intros (item' & Heq' & [Hexp' Hin']%list_elem_of_filter)%list_elem_of_fmap.
    by rewrite (NoDup_fmap_eq snd _ _ _ Ha Hin Hin' Heq') in Hexp.
Qed.

(** Registering a record that has a creation time keeps a store well
    formed. *)
Lemma register_well_formed state d w :
  well_formed w → is_Some (flow_data.created_at d) → well_formed (register state d w).
Proof.
  intros [Hs Ha Hc] Hd.
  assert (length (heap w) ∉ (auth_flows w).*2) as Hfresh.
  { intros (item & Heq & Hin)%list_elem_of_fmap.
    destruct (Hc _ Hin) as (d' & Hd' & _).
    apply lookup_lt_Some in Hd'. lia. }
  split; unfold register; cbn [auth_flows heap].
  - by apply dict_set_NoDup_keys.
  - by apply dict_set_NoDup_values.
  - intros item [->|Hin]%dict_set_elem_of.
    + exists d. split; [|done]. cbn [snd]. by rewrite lookup_app_r, Nat.sub_diag.
    + destruct (Hc _ Hin) as (d' & Hd' & Ht). exists d'. split; [|done].
      by apply lookup_app_l_Some.
Qed.

(** A successful [create_auth_url] registers its flow and then sweeps; it
    keeps a store well formed. *)
Lemma create_auth_url_success P project_id user_session created swept w r w' :
  create_auth_url P project_id user_session created swept w = (r, w') →
  (∃ error, r = AuthUrlError error)
  ∨ ∃ auth_url state callback_port d,
      r = AuthUrl auth_url state callback_port (bool_decide (project_id = None)) project_id
      ∧ flow_data.created_at d = Some created
      ∧ flow_data.code d = Some None
      ∧ flow_data.callback_port d = Some callback_port
      ∧ cleanup_expired_flows swept (register state d w) = Ok w'.
Proof.
  unfold create_auth_url.
  destruct (find_available_port P) as [port|e]; [|intros [= <- <-]; eauto].
  destruct (start_listener P port) as [[srv th]|e]; [|intros [= <- <-]; eauto].
  destruct (authorization_url P _ _) as [url|e]; [|intros [= <- <-]; eauto].
  destruct (cleanup_expired_flows swept _) as [w1|e] eqn:Hsweep; intros [= <- <-]; [|eauto].
  right. eexists _, _, _, _. split; [reflexivity|]. split_and!; [..|exact Hsweep]; done.
Qed.

Lemma create_auth_url_well_formed P project_id user_session created swept w r w' :
  well_formed w →
  create_auth_url P project_id user_session created swept w = (r, w') →
  (∃ auth_url state port auto detected, r = AuthUrl auth_url state port auto detected) →
  well_formed w'.
Proof.
  intros Hwf Hcreate (? & ? & ? & ? & ? & ->).
  destruct (create_auth_url_success _ _ _ _ _ _ _ _ Hcreate)
    as [[? [=]] | (url & st & port & d & _ & Hd & _ & _ & Hsweep)].
  eapply cleanup_expired_flows_well_formed; [|exact Hsweep].
  apply register_well_formed; [done|]. by rewrite Hd.
Qed.


Lemma two_flows_well_formed : well_formed two_flows.
Proof.
  split.
  - apply (bool_decide_unpack _). by vm_compute.
  - apply (bool_decide_unpack _). by vm_compute.
  - intros item Hin. unfold two_flows in Hin. cbn [auth_flows] in Hin.
    apply elem_of_cons in Hin as [->|Hin]; [eexists; split; [reflexivity|by eexists]|].
    apply list_elem_of_singleton in Hin as ->.
    eexists; split; [reflexivity|by eexists].
Qed.

(** C6. A sweep at time [now] of a well-formed store succeeds; it removes
    every flow whose age exceeds 600 seconds, after starting the shutdown of
    its listener, and it leaves every flow whose age is at most 600 seconds
    registered with its record untouched.  A successful [create_auth_url]
    has registered its flow and then run this sweep. *)
Theorem cleanup_expired_flows_removes_exactly_the_expired now w :
  well_formed w →
  (∃ w', cleanup_expired_flows now w = Ok w'
     ∧ (∀ s a, (s, a) ∈ auth_flows w → age now w (s, a) > 600 →
          (s ∉ (auth_flows w').*1)
          ∧ (∃ before after,
               trace w' = before ++ teardown_events w (s, a) ++ after)
          ∧ (∀ srv, flow_data.server (deref w a) = Some srv →
               teardown_events w (s, a)
               = [Shutdown srv (flow_data.callback_port (deref w a)); Del s]))
     ∧ (∀ s a, (s, a) ∈ auth_flows w → age now w (s, a) ≤ 600 →
          (s, a) ∈ auth_flows w' ∧ heap w' !! a = heap w !! a))
  ∧ (∀ P project_id user_session created auth_url state port auto detected w',
       create_auth_url P project_id user_session created now w
       = (AuthUrl auth_url state port auto detected, w') →
       ∃ d, flow_data.created_at d = Some created
            ∧ cleanup_expired_flows now (register state d w) = Ok w').
Proof.
  intros Hwf. split.
  - destruct (cleanup_expired_flows_spec now w Hwf) as (w' & Heq & Ht & Htr & Hh).
    destruct Hwf as [Hs Ha Hc].
    exists w'. split; [done|]. split.
    + intros s a Hin Hage. split; [|split].
      * rewrite Ht.
        intros ([s' a'] & Heq' & [Hexp' Hin']%list_elem_of_filter)%list_elem_of_fmap.
        cbn [fst] in Heq'. subst s'.
        by rewrite (NoDup_keys_eq _ _ _ _ Hs Hin Hin') in Hage.
      * rewrite Htr.
        destruct (flat_map_elem_split (teardown_events w)
                    (filter (is_expired now w) (auth_flows w)) (s, a))
          as (before & after & Hsplit).
        { by apply list_elem_of_filter. }
        exists (trace w ++ before), after. by rewrite Hsplit, <-app_assoc.
      * intros srv Hsrv. unfold teardown_events. cbn [fst snd]. by rewrite Hsrv.
    + intros s a Hin Hage. split.
      * rewrite Ht. apply list_elem_of_filter. split; [|done].
        by apply not_expired_le.
      * rewrite Hh, decide_False; [done|].
        intros (item' & Heq' & [Hexp' Hin']%list_elem_of_filter)%list_elem_of_fmap.
        rewrite <-(NoDup_fmap_eq snd _ _ _ Ha Hin Hin' Heq') in Hexp'.
        unfold is_expired, EXPIRY_TIME in Hexp'. lia.
  - intros P project_id user_session created auth_url state port auto detected w' Hc.
    destruct (create_auth_url_success _ _ _ _ _ _ _ _ Hc)
      as [[? [=]] | (url & st & port' & d & [= -> -> -> -> _] & Hd & _ & _ & Hsweep)].
    eauto.
Qed.

Lemma cleanup_expired_flows_removes_exactly_the_expired_witness :
  well_formed two_flows
  ∧ ((∃ w', cleanup_expired_flows 1700 two_flows = Ok w'
       ∧ (∀ s a, (s, a) ∈ auth_flows two_flows → age 1700 two_flows (s, a) > 600 →
            (s ∉ (auth_flows w').*1)
            ∧ (∃ before after,
                 trace w' = before ++ teardown_events two_flows (s, a) ++ after)
            ∧ (∀ srv, flow_data.server (deref two_flows a) = Some srv →
                 teardown_events two_flows (s, a)
                 = [Shutdown srv (flow_data.callback_port (deref two_flows a)); Del s]))
       ∧ (∀ s a, (s, a) ∈ auth_flows two_flows → age 1700 two_flows (s, a) ≤ 600 →
            (s, a) ∈ auth_flows w' ∧ heap w' !! a = heap two_flows !! a))
     ∧ (∀ P project_id user_session created auth_url state port auto detected w',
          create_auth_url P project_id user_session created 1700 two_flows
          = (AuthUrl auth_url state port auto detected, w') →
          ∃ d, flow_data.created_at d = Some created
               ∧ cleanup_expired_flows 1700 (register state d two_flows) = Ok w')).
Proof.
  exact (conj two_flows_well_formed
           (cleanup_expired_flows_removes_exactly_the_expired 1700 two_flows
              two_flows_well_formed)).
Defined.

(** On the sample store the sweep of time 1700 removes the flow created at
    1000 and keeps the one created at 1500. *)
Example cleanup_expired_flows_two_flows :
  cleanup_expired_flows 1700 two_flows
  = Ok (World [flow_data.empty; sample_flow 8081 2 1500] [("new", 1%nat)]
          [Shutdown 1 (Some 8080); Del "old"]).
Proof. vm_compute. reflexivity. Qed.

End expiry.

(** ** The memory guard *)

Section sorted_facts.
Context {A : Type} (key : A → Z).
Implicit Types (l : list A) (x y : A).

(** [x] is in front of [y] in a list sorted by [sorted_desc]. *)
Definition not_older (x y : A) : Prop := key y ≤ key x.

Lemma insert_desc_perm x l : insert_desc key x l ≡ₚ x :: l.
Proof.
  induction l as [|y l IH]; cbn [insert_desc]; [done|].
  case_bool_decide; [|done].
  rewrite IH. apply Permutation_swap.
Qed.

Lemma sorted_desc_perm l : sorted_desc key l ≡ₚ l.
Proof.
  induction l as [|x l IH]; cbn [sorted_desc foldr]; [done|].
  fold (sorted_desc key l). by rewrite insert_desc_perm, IH.
Qed.

Lemma insert_desc_sorted x l :
  StronglySorted not_older l → StronglySorted not_older (insert_desc key x l).
Proof.
  induction 1 as [|y l Hl IH Hy]; cbn [insert_desc].
  { repeat constructor. }
  case_bool_decide as Hlt.
  - constructor; [done|]. rewrite insert_desc_perm.
    constructor; [|done]. unfold not_older. lia.
  - constructor; [by constructor|].
    constructor; [unfold not_older; lia|].
    eapply Forall_impl; [exact Hy|]. unfold not_older. intros z Hz. lia.
Qed.

Lemma sorted_desc_sorted l : StronglySorted not_older (sorted_desc key l).
Proof.
  induction l as [|x l IH]; cbn [sorted_desc foldr]; [constructor|].
  by apply insert_desc_sorted.
Qed.

Lemma sorted_take_drop (R : A → A → Prop) l n x y :
  StronglySorted R l → x ∈ take n l → y ∈ drop n l → R x y.
Proof.
  intros Hl. revert n. induction Hl as [|z l Hl IH Hz]; intros n Hx Hy.
  { rewrite take_nil in Hx. by apply elem_of_nil in Hx. }
  destruct n as [|n]; [by apply elem_of_nil in Hx|].
  cbn [take drop] in Hx, Hy.
  apply elem_of_cons in Hx as [->|Hx]; [|by eapply IH].
  rewrite Forall_forall in Hz. apply Hz.
  eapply elem_of_sublist; [exact Hy|apply sublist_drop].
Qed.
End sorted_facts.

Section dict_of_pairs_facts.
Context {V : Type}.
Implicit Types (d : list (string * V)).

Lemma dict_set_fresh k (v : V) d : k ∉ d.*1 → dict_set k v d = d ++ [(k, v)].
Proof.
  induction d as [|[k' v'] d IH]; cbn [dict_set]; [done|].
  rewrite fmap_cons, not_elem_of_cons. cbn [fst]. intros [Hne Hk].
  rewrite decide_False by done. by rewrite IH.
Qed.

Lemma foldl_dict_set_NoDup pairs : ∀ d,
  NoDup (d ++ pairs).*1 →
  foldl (fun d kv => dict_set kv.1 kv.2 d) d pairs = d ++ pairs.
Proof.
  induction pairs as [|[k v] pairs IH]; intros d Hd; cbn [foldl].
  { by rewrite app_nil_r. }
  cbn [fst snd]. rewrite dict_set_fresh.
  - rewrite IH; rewrite <-app_assoc; done.
  - rewrite fmap_app, fmap_cons in Hd. cbn [fst] in Hd.
    apply NoDup_app in Hd as (_ & Hd & _). intros Hk. apply (Hd _ Hk). left.
Qed.

(** [dict(pairs)] of pairs with distinct keys has them in their order. *)
Lemma dict_of_pairs_NoDup (pairs : list (string * V)) :
  NoDup pairs.*1 → dict_of_pairs pairs = pairs.
Proof. intros H. unfold dict_of_pairs. by rewrite foldl_dict_set_NoDup. Qed.

Lemma dict_in_elem_of k d : dict_in k d = true ↔ k ∈ d.*1.
Proof.
  rewrite dict_in_get. split.
  - intros [v Hv]. apply list_elem_of_fmap. exists (k, v). split; [done|].
    by apply dict_get_elem_of.
  - intros Hk. destruct (dict_get k d) eqn:Hget; [by eexists|].
    induction d as [|[k' v'] d IH]; [by apply elem_of_nil in Hk|].
    cbn [dict_get] in Hget. case_decide; [done|].
    rewrite fmap_cons in Hk. apply elem_of_cons in Hk as [?|Hk]; [done|]. auto.
Qed.
End dict_of_pairs_facts.

Section memory_guard.
Implicit Types (w : world) (item : string * nat) (l : list (string * nat)).

Lemma foldl_drop_unless_kept new_auth_flows l : ∀ w,
  auth_flows (foldl (drop_unless_kept new_auth_flows) w l) = auth_flows w
  ∧ heap (foldl (drop_unless_kept new_auth_flows) w l)
    = foldl (fun h a => alter (fun _ => flow_data.empty) a h) (heap w)
        (filter (fun item => item.1 ∉ new_auth_flows.*1) l).*2.
Proof.
  induction l as [|item l IH]; intros w; cbn [foldl]; [done|].
  destruct (IH (drop_unless_kept new_auth_flows w item)) as [IH1 IH2].
  rewrite IH1, IH2. unfold drop_unless_kept. rewrite filter_cons.
  destruct (dict_in item.1 new_auth_flows) eqn:Hin.
  - apply dict_in_elem_of in Hin. by rewrite decide_False by tauto.
  - rewrite decide_True.
    + unfold clear, mutate, shutdown_if_server.
      destruct (flow_data.server (deref w item.2)); by rewrite fmap_cons.
    + rewrite <-dict_in_elem_of. by rewrite Hin.
Qed.

(** What the memory guard does to a well-formed store. *)
Lemma cleanup_auth_flows_for_memory_spec now w :
  well_formed w →
  ∃ w1 w2,
    cleanup_expired_flows now w = Ok w1
    ∧ cleanup_auth_flows_for_memory now w = Ok (length (auth_flows w2), w2)
    ∧ NoDup (auth_flows w2).*1 ∧ NoDup (auth_flows w2).*2
    ∧ (∀ kept, kept ∈ auth_flows w2 →
         kept ∈ auth_flows w1 ∧ heap w2 !! kept.2 = heap w1 !! kept.2)
    ∧ (∀ dropped, dropped ∈ auth_flows w1 → dropped ∉ auth_flows w2 →
         (dropped.1 ∉ (auth_flows w2).*1)
         ∧ heap w2 !! dropped.2 = Some flow_data.empty
         ∧ ∀ kept, kept ∈ auth_flows w2 →
             created_at_key w1 dropped ≤ created_at_key w1 kept)
    ∧ (∀ b, b ∉ (auth_flows w1).*2 → heap w2 !! b = heap w1 !! b)
    ∧ ((10 < length (auth_flows w1))%nat → length (auth_flows w2) = 10%nat)
    ∧ ((length (auth_flows w1) ≤ 10)%nat → w2 = w1).
Proof.
  intros Hwf.
  destruct (cleanup_expired_flows_spec now w Hwf) as (w1 & Heq & _).
  pose proof (cleanup_expired_flows_well_formed now w w1 Hwf Heq) as [Hs Ha Hc].
  exists w1. unfold cleanup_auth_flows_for_memory. rewrite Heq. cbn [res_bind].
  case_bool_decide as Hlen.
  2:{ exists w1. split_and!; [done..| | |done|lia|done].
      - intros kept Hk. done.
      - intros dropped Hin Hnot. done. }
  set (sorted_flows := sorted_desc (created_at_key w1) (auth_flows w1)).
  assert (sorted_flows ≡ₚ auth_flows w1) as Hperm by apply sorted_desc_perm.
  assert (NoDup sorted_flows.*1) as Hsorted_keys by by rewrite Hperm.
  assert (NoDup (take 10 sorted_flows).*1) as Hnew_keys.
  { eapply sublist_NoDup; [exact Hsorted_keys|]. apply fmap_sublist, sublist_take. }
  rewrite (dict_of_pairs_NoDup _ Hnew_keys).
  set (new_auth_flows := take 10 sorted_flows).
  destruct (foldl_drop_unless_kept new_auth_flows (auth_flows w1) w1) as [_ Hheap].
  set (w' := foldl _ w1 _) in *.
  exists (World (heap w') new_auth_flows (trace w')). cbn [auth_flows heap].
  assert (∀ kept, kept ∈ new_auth_flows → kept ∈ auth_flows w1) as Hkept_in.
  { intros kept Hk. rewrite <-Hperm. eapply elem_of_sublist; [exact Hk|apply sublist_take]. }
  assert (∀ dropped, dropped ∈ auth_flows w1 → dropped ∉ new_auth_flows →
            dropped.1 ∉ new_auth_flows.*1) as Hdropped_key.
  { intros dropped Hin Hnot (kept & Hkey & Hk)%list_elem_of_fmap.
    apply Hnot. by rewrite (NoDup_fmap_eq fst _ _ _ Hs Hin (Hkept_in _ Hk) Hkey). }
  split_and!; [done|done|done| | | | | |lia].
  - eapply sublist_NoDup; [|apply fmap_sublist, sublist_take]. by rewrite Hperm.
  - intros kept Hk. split; [by apply Hkept_in|].
    rewrite Hheap, lookup_foldl_clear, decide_False; [done|].
    intros (item & Haddr & [Hnot Hin]%list_elem_of_filter)%list_elem_of_fmap.
    apply Hnot. apply list_elem_of_fmap. exists kept. split; [|done].
    f_equal. symmetry. by apply (NoDup_fmap_eq snd _ _ _ Ha (Hkept_in _ Hk) Hin).
  - intros dropped Hin Hnot. split_and!.
    + by apply Hdropped_key.
    + rewrite Hheap, lookup_foldl_clear, decide_True.
      * destruct (Hc _ Hin) as (d & -> & _). done.
      * apply list_elem_of_fmap. exists dropped. split; [done|].
        apply list_elem_of_filter. split; [|done]. by apply Hdropped_key.
    + intros kept Hk.
      apply (sorted_take_drop (not_older (created_at_key w1)) sorted_flows 10 kept dropped).
      * apply sorted_desc_sorted.
      * done.
      * assert (dropped ∈ take 10 sorted_flows ++ drop 10 sorted_flows) as Hd.
        { rewrite take_drop. by rewrite Hperm. }
        apply elem_of_app in Hd as [?|?]; done.
  - intros b Hb. rewrite Hheap, lookup_foldl_clear, decide_False; [done|].
    intros (item & Haddr & [_ Hin]%list_elem_of_filter)%list_elem_of_fmap.
    apply Hb. apply list_elem_of_fmap. by exists item.
  - intros _. unfold new_auth_flows. rewrite length_take.
    apply Permutation_length in Hperm. lia.
Qed.


Lemma many_flows_12_well_formed : well_formed (many_flows 12).
Proof.
  split.
  - apply (bool_decide_unpack _). by vm_compute.
  - apply (bool_decide_unpack _). by vm_compute.
  - apply Forall_forall.
    repeat (constructor; [eexists; split; [reflexivity|by eexists]|]).
    constructor.
Qed.


(** Of twelve flows none of which has expired, the two oldest are dropped,
    their listeners shut down, and the ten newest are kept, newest first. *)
Example cleanup_auth_flows_for_memory_twelve :
  ∃ w2, cleanup_auth_flows_for_memory 1100 (many_flows 12) = Ok (10%nat, w2)
    ∧ (auth_flows w2).*1
      = ["flow-11"; "flow-10"; "flow-9"; "flow-8"; "flow-7"; "flow-6"; "flow-5";
         "flow-4"; "flow-3"; "flow-2"]
    ∧ trace w2 = [Shutdown 0 (Some 8080); Shutdown 1 (Some 8081)].
Proof. eexists. vm_compute. split_and!; reflexivity. Qed.

End memory_guard.

(** ** Panel tokens *)

Section panel_tokens.
Implicit Types (auth_tokens : gmap string Z) (token : string).

Lemma verify_auth_token_fresh token now created_at auth_tokens :
  token ≠ "" → auth_tokens !! token = Some created_at → now - created_at ≤ TOKEN_EXPIRY →
  verify_auth_token token now auth_tokens = (true, auth_tokens).
Proof.
  intros Ht Hget Hle. unfold verify_auth_token.
  rewrite Hget. rewrite (bool_decide_eq_true_2 (token ≠ "")) by done.
  rewrite (bool_decide_eq_true_2 (is_Some _)) by by eexists. cbn [negb orb].
  by rewrite bool_decide_eq_false_2 by lia.
Qed.

Lemma verify_auth_token_stale token now created_at auth_tokens :
  token ≠ "" → auth_tokens !! token = Some created_at → now - created_at > TOKEN_EXPIRY →
  verify_auth_token token now auth_tokens = (false, delete token auth_tokens).
Proof.
  intros Ht Hget Hgt. unfold verify_auth_token.
  rewrite Hget. rewrite (bool_decide_eq_true_2 (token ≠ "")) by done.
  rewrite (bool_decide_eq_true_2 (is_Some _)) by by eexists. cbn [negb orb].
  by rewrite bool_decide_eq_true_2 by done.
Qed.

Lemma verify_auth_token_absent token now auth_tokens :
  auth_tokens !! token = None →
  verify_auth_token token now auth_tokens = (false, auth_tokens).
Proof.
  intros Hget. unfold verify_auth_token. rewrite Hget.
  rewrite (bool_decide_eq_false_2 (is_Some _)) by by intros [? ?].
  by rewrite orb_true_r.
Qed.

Lemma invalidate_auth_token_lookup token auth_tokens :
  invalidate_auth_token token auth_tokens !! token = None.
Proof.
  unfold invalidate_auth_token. case_bool_decide as H.
  - apply lookup_delete_eq.
  - destruct (auth_tokens !! token) eqn:Hget; [|done]. exfalso. apply H. by eexists.
Qed.

(** C9. A token T issued by [generate_auth_token] at time [issued] verifies
    as long as no more than 21600 seconds have passed since; once more have
    passed it does not, and the failed check removes it from the table; and
    after [invalidate_auth_token(T)] it does not verify at any time. *)
Theorem panel_token_lifecycle token swept issued auth_tokens :
  token ≠ "" →
  ∃ tokens, generate_auth_token token swept issued auth_tokens = (token, tokens)
    ∧ tokens !! token = Some issued
    ∧ (∀ now, now - issued ≤ 21600 →
         verify_auth_token token now tokens = (true, tokens))
    ∧ (∀ now, now - issued > 21600 →
         verify_auth_token token now tokens = (false, delete token tokens)
         ∧ delete token tokens !! token = None)
    ∧ (∀ now, verify_auth_token token now (invalidate_auth_token token tokens)
              = (false, invalidate_auth_token token tokens)
              ∧ invalidate_auth_token token tokens !! token = None).
Proof.
  intros Ht. unfold generate_auth_token. eexists. split; [reflexivity|].
  set (tokens := <[token := issued]> _).
  assert (tokens !! token = Some issued) as Hget by apply lookup_insert_eq.
  split_and!; [done|..].
  - intros now Hle. by apply (verify_auth_token_fresh _ _ issued).
  - intros now Hgt. split; [|apply lookup_delete_eq].
    by apply (verify_auth_token_stale _ _ issued).
  - intros now. split; [|apply invalidate_auth_token_lookup].
    apply verify_auth_token_absent, invalidate_auth_token_lookup.
Qed.

Lemma panel_token_lifecycle_witness :
  "tok-1" ≠ ""
  ∧ ∃ tokens, generate_auth_token "tok-1" 5000 5000 {["stale" := 0]} = ("tok-1", tokens)
      ∧ tokens !! "tok-1" = Some 5000
      ∧ (∀ now, now - 5000 ≤ 21600 →
           verify_auth_token "tok-1" now tokens = (true, tokens))
      ∧ (∀ now, now - 5000 > 21600 →
           verify_auth_token "tok-1" now tokens = (false, delete "tok-1" tokens)
           ∧ delete "tok-1" tokens !! "tok-1" = None)
      ∧ (∀ now, verify_auth_token "tok-1" now (invalidate_auth_token "tok-1" tokens)
                = (false, invalidate_auth_token "tok-1" tokens)
                ∧ invalidate_auth_token "tok-1" tokens !! "tok-1" = None).
Proof.
  assert ("tok-1" ≠ "") as H by discriminate.
  exact (conj H (panel_token_lifecycle "tok-1" 5000 5000 {["stale" := 0]} H)).
Defined.

(** A check of an unexpired token changes nothing, so the token keeps
    verifying, check after check, until its time is up. *)
Example panel_token_sample :
  let tokens := (generate_auth_token "tok-1" 30000 30000 {["stale" := 0]}).2 in
  tokens = {["tok-1" := 30000]}
  ∧ verify_auth_token "tok-1" 51600 tokens = (true, tokens)
  ∧ verify_auth_token "tok-1" 51601 tokens = (false, ∅)
  ∧ verify_auth_token "" 30000 tokens = (false, tokens).
Proof. vm_compute. split_and!; reflexivity. Qed.

End panel_tokens.

(** ** The project resolver *)

Section project_resolver.
Implicit Types (p q : project) (user_projects : list project).

Lemma find_unique_match p user_projects :
  p ∈ user_projects → mentions_default p = true →
  (∀ q, q ∈ user_projects → mentions_default q = true → q = p) →
  List.find mentions_default user_projects = Some p.
Proof.
  intros Hin Hp Huniq.
  destruct (List.find mentions_default user_projects) as [q|] eqn:Hfind.
  - apply find_some in Hfind as [Hq Hmq].
    f_equal. apply Huniq; [by apply list_elem_of_In|done].
  - rewrite (find_none _ _ Hfind p) in Hp; [done|]. by apply list_elem_of_In.
Qed.

Lemma find_no_match user_projects :
  Forall (fun q => mentions_default q = false) user_projects →
  List.find mentions_default user_projects = None.
Proof.
  induction 1 as [|q l Hq Hl IH]; cbn [List.find]; [done|]. by rewrite Hq.
Qed.

Lemma truthy_Some_default (o : option string) : truthy (Some (default "" o)) = truthy o.
Proof.
  destruct o as [s|]; [done|]. cbn. by apply bool_decide_eq_false_2; intros [].
Qed.

(** C4, amended.  After the exchange, for a flow whose project is to be
    detected: an empty listing gives the result that asks for a manual
    project id; a listing in which exactly one project mentions "default"
    (in its display name or id, in any case) settles on that project's id,
    when it has one; and a listing of two or more projects of which none
    mentions "default" settles on the first project's id (strategy 2 of
    [select_default_project]), the result that asks for a selection among
    all candidates, in the order of the listing, being returned only when the
    first project has no id. *)
Theorem project_from_listing_spec user_projects :
  (user_projects = [] →
     project_from_listing user_projects = inr (AuthFailure CANNOT_LIST true))
  ∧ (∀ p, p ∈ user_projects → mentions_default p = true →
       (∀ q, q ∈ user_projects → mentions_default q = true → q = p) →
       truthy (projectId p) = true →
       project_from_listing user_projects = inl (default "" (projectId p)))
  ∧ (∀ first second rest, user_projects = first :: second :: rest →
       Forall (fun q => mentions_default q = false) user_projects →
       project_from_listing user_projects
       = if truthy (projectId first) then inl (default "" (projectId first))
         else inr (AuthSelection SELECT_PROJECT (to_available <$> user_projects))).
Proof.
  split_and!.
  - by intros ->.
  - intros p Hin Hp Huniq Hid.
    apply truthy_inv in Hid as (pid & Hpid & Hne).
    unfold project_from_listing, resolve_listed.
    destruct user_projects as [|first [|second rest]].
    + by apply elem_of_nil in Hin.
    + apply list_elem_of_singleton in Hin as ->.
      by rewrite Hpid, truthy_Some.
    + unfold select_default_project.
      rewrite (find_unique_match p _ Hin Hp Huniq), Hpid. cbn [default].
      by rewrite !truthy_Some.
  - intros first second rest -> Hnone.
    unfold project_from_listing, resolve_listed, select_default_project.
    rewrite (find_no_match _ Hnone), truthy_Some_default.
    destruct (truthy (projectId first)) eqn:Hid; [|done].
    by rewrite truthy_Some_default, Hid.
Qed.

(** C4 as stated fails: of two projects of which none mentions "default",
    the first is selected; no selection is asked for. *)
Lemma two_plain_projects_select_the_first :
  let user_projects :=
    [ Project (Some "alpha-123") (Some "Alpha") (Some "1");
      Project (Some "beta-456") (Some "Beta") (Some "2") ] in
  Forall (fun q => mentions_default q = false) user_projects
  ∧ select_default_project user_projects = Some "alpha-123"
  ∧ project_from_listing user_projects = inl "alpha-123"
  ∧ project_from_listing user_projects
    ≠ inr (AuthSelection SELECT_PROJECT (to_available <$> user_projects)).
Proof. cbv zeta. split_and!; [by repeat constructor|by vm_compute..]. Qed.

(** The three cases on sample listings *)
Example project_from_listing_samples :
  project_from_listing [] = inr (AuthFailure CANNOT_LIST true)
  ∧ project_from_listing
      [ Project (Some "alpha-123") (Some "Alpha") (Some "1");
        Project (Some "beta-456") (Some "My DEFAULT project") (Some "2");
        Project (Some "gamma-789") (Some "Gamma") (Some "3") ] = inl "beta-456"
  ∧ project_from_listing
      [ Project None (Some "Alpha") (Some "1");
        Project (Some "beta-456") (Some "Beta") (Some "2") ]
    = inr (AuthSelection SELECT_PROJECT
             [ AvailableProject None (Some "Alpha") (Some "1");
               AvailableProject (Some "beta-456") (Some "Beta") (Some "2") ]).
Proof. by vm_compute. Qed.

End project_resolver.

(** ** The patch of the token validation *)

Section validator_patch.
Implicit Types (p : process) (P : provider).

Lemma keeps_next {A} (a : A) : keeps_validator (next a).
Proof. by intros p. Qed.

Lemma keeps_return {A} r : keeps_validator (@return_ A r).
Proof. by intros p. Qed.

Lemma keeps_get_flows : keeps_validator get_flows.
Proof. by intros p. Qed.

Lemma keeps_get_validator : keeps_validator get_validator.
Proof. by intros p. Qed.

Lemma keeps_on_flows f : keeps_validator (on_flows f).
Proof. by intros p. Qed.

Lemma keeps_load a : keeps_validator (load a).
Proof. by intros p. Qed.

Lemma keeps_of_res {A} (r : res A) : keeps_validator (of_res r).
Proof. intros p. by destruct r. Qed.

Lemma keeps_and_then {A B} (m : M A) (k : A → M B) :
  keeps_validator m → (∀ a, keeps_validator (k a)) → keeps_validator (and_then m k).
Proof.
  intros Hm Hk p. unfold and_then. specialize (Hm p).
  destruct (m p) as [[a| | |] p']; cbn [snd] in *; [|done..].
  by rewrite Hk.
Qed.

Lemma keeps_try_except {A} (m : M A) handler :
  keeps_validator m → (∀ e, keeps_validator (handler e)) →
  keeps_validator (try_except m handler).
Proof.
  intros Hm Hh p. unfold try_except. specialize (Hm p).
  destruct (m p) as [[a| |e|] p']; cbn [snd] in *; [done..| |done].
  by rewrite Hh.
Qed.

Lemma keeps_when b m : keeps_validator m → keeps_validator (when b m).
Proof. intros Hm. destruct b; [done|apply keeps_next]. Qed.

Lemma keeps_save P credentials project_id : keeps_validator (save P credentials project_id).
Proof. intros p. unfold save. by destruct (save_credentials _ _ _ _ _) as [[? ?]|]. Qed.

Lemma keeps_wait state sch fuel : keeps_validator (wait state sch fuel).
Proof.
  intros p. unfold wait.
  by destruct (wait_for_callback_sync _ _ _ _ _) as [[[?|?] ?]|].
Qed.

(** Whatever the [try] does, the [finally] puts back the value that was
    saved before the patch. *)
Lemma keeps_patched_exchange P enable_apis state flow_data flow auth_code project_id :
  keeps_validator (patched_exchange P enable_apis state flow_data flow auth_code project_id).
Proof.
  intros p. unfold patched_exchange, try_finally.
  by destruct (try_except _ _ _) as [o p'].
Qed.

(** The exchange itself runs under the patch. *)
Lemma patched_exchange_unfold P enable_apis state flow_data flow auth_code project_id p :
  patched_exchange P enable_apis state flow_data flow auth_code project_id p
  = let '(o, p') :=
      try_except
        (exchange_and_save P enable_apis state flow_data flow auth_code project_id)
        (fun e => return_ (AuthFailure (EXCHANGE_FAILED e) false))
        (set_validator (Patched (validate_token_parameters p)) p) in
    (o, set_validator (validate_token_parameters p) p').
Proof. reflexivity. Qed.

End validator_patch.

Create HintDb keeps.
#[local] Hint Resolve keeps_next keeps_return keeps_get_flows keeps_get_validator
  keeps_on_flows keeps_load keeps_of_res keeps_save keeps_wait keeps_patched_exchange
  : keeps.

Ltac keeps_step :=
  match goal with
  | |- keeps_validator (and_then _ _) => apply keeps_and_then; [|intros ?]
  | |- keeps_validator (try_except _ _) => apply keeps_try_except; [|intros ?]
  | |- keeps_validator (when _ _) => apply keeps_when
  | |- keeps_validator (match ?x with _ => _ end) => destruct x
  | |- keeps_validator _ => solve [auto with keeps]
  end.

Section completion.
Implicit Types (p : process) (P : provider).

Lemma result_of_snd (m : M auth_result) p :
  (let '(o, p') := m p in (result_of o, p')).2 = (m p).2.
Proof. by destruct (m p). Qed.

Lemma keeps_apply {A} (m : M A) p :
  keeps_validator m → validate_token_parameters (m p).2 = validate_token_parameters p.
Proof. intros Hm. apply Hm. Qed.



(** The patch at work: a [Warning] of the validation is swallowed under the
    patch and only there, another exception is not. *)
Example call_validator_samples :
  call_validator Library (Some (Warning "Scope has changed")) = Raise (Warning "Scope has changed")
  ∧ call_validator (Patched Library) (Some (Warning "Scope has changed")) = Ok ()
  ∧ call_validator (Patched Library) (Some (Exception "missing token")) = Raise (Exception "missing token")
  ∧ call_validator (Patched Library) None = Ok ().
Proof. done. Qed.

(** A run of the cooperative variant: the code has arrived, the response
    draws the scope warning, the listing has two projects without "default".
    The exchange succeeds under the patch, the first project is settled on,
    its services are enabled, the credential is written, the flow is torn
    down and the validator is the library's again. *)
Example asyncio_complete_auth_flow_sample :
  let w := (do_GET (callback_query "4/0AbUR2VM" "S") one_flow).2 in
  let '(r, p) :=
    asyncio_complete_auth_flow
      (granting (Some (Warning "Scope has changed")) two_plain_projects) idle None None
      (sample_process w) in
  r = Some (AuthSuccess (creds_data sample_credentials "alpha-123")
              "alpha-123-1700000000.json" true)
  ∧ validate_token_parameters p = Library
  ∧ auth_flows (flows p) = []
  ∧ trace (flows p) = [EnableApis "alpha-123"; Shutdown 1 (Some 8080); Del "S"]
  ∧ files (disk p) = {["creds/alpha-123-1700000000.json" := creds_data sample_credentials "alpha-123"]}.
Proof. vm_compute. split_and!; reflexivity. Qed.

(** A run in which the provider refuses the code: the failure is reported,
    the flow stays registered and the validator is the library's again. *)
Example complete_auth_flow_refused :
  let w := (do_GET (callback_query "4/0AbUR2VM" "S") one_flow).2 in
  let '(r, p) :=
    complete_auth_flow refusing idle 10 (Some "my-project") None (sample_process w) in
  r = Some (AuthFailure (EXCHANGE_FAILED (Exception "invalid_grant")) false)
  ∧ validate_token_parameters p = Library
  ∧ (auth_flows (flows p)).*1 = ["S"].
Proof. vm_compute. split_and!; reflexivity. Qed.

Example asyncio_complete_auth_flow_refused :
  let w := (do_GET (callback_query "4/0AbUR2VM" "S") one_flow).2 in
  let '(r, p) :=
    asyncio_complete_auth_flow refusing idle None None (sample_process w) in
  r = Some (AuthFailure (EXCHANGE_FAILED (Exception "invalid_grant")) false)
  ∧ validate_token_parameters p = Library
  ∧ (auth_flows (flows p)).*1 = ["S"].
Proof. vm_compute. split_and!; reflexivity. Qed.

End completion.

(** ** The credential persister *)

Section strings.
Implicit Types (s a b : string).

Lemma append_inj_l s a b : s +:+ a = s +:+ b → a = b.
Proof. induction s as [|c s IH]; simpl; [done|]. intros [= H]. auto. Qed.

Lemma length_append a b : String.length (a +:+ b) = (String.length a + String.length b)%nat.
Proof. induction a as [|c a IH]; simpl; [done|]. by rewrite IH. Qed.

Lemma append_inj_r s a b : a +:+ s = b +:+ s → a = b.
Proof.
  revert b. induction a as [|c a IH]; intros [|c' b] H; simpl in H.
  - done.
  - apply (f_equal String.length) in H. simpl in H. rewrite !length_append in H.
    simpl in H. lia.
  - apply (f_equal String.length) in H. simpl in H. rewrite !length_append in H.
    simpl in H. lia.
  - injection H as -> H. f_equal. auto.
Qed.

Lemma N_to_uint_nonnil (n : N) : N.to_uint n ≠ Decimal.Nil.
Proof. destruct n; [done|]. apply DecimalPos.Unsigned.to_uint_nonnil. Qed.

Lemma str_N_inj (m n : N) : str_N m = str_N n → m = n.
Proof.
  unfold str_N. intros H. apply (f_equal NilZero.uint_of_string) in H.
  rewrite !NilZero.usu in H by apply N_to_uint_nonnil.
  injection H as H. by apply DecimalN.Unsigned.to_uint_inj.
Qed.

Lemma prefix_empty s : String.prefix "" s = true.
Proof. by destruct s. Qed.

Lemma prefix_slash_append base a b :
  String.prefix "/" (base +:+ "-" +:+ a) = String.prefix "/" (base +:+ "-" +:+ b).
Proof.
  destruct base as [|c base]; [done|].
  change (String.prefix "/" (String c (base +:+ "-" +:+ a))
          = String.prefix "/" (String c (base +:+ "-" +:+ b))).
  cbn [String.prefix]. destruct (ascii_dec "/" c); [|done].
  by rewrite !prefix_empty.
Qed.

(** [os.path.join] is injective on file names that agree on being
    absolute. *)
Lemma path_join_inj dir a b :
  String.prefix "/" a = String.prefix "/" b → path_join dir a = path_join dir b → a = b.
Proof.
  unfold path_join. intros <-. destruct (String.prefix "/" a); [done|].
  destruct (_ || _).
  - apply append_inj_l.
  - intros H. by apply append_inj_l, append_inj_l in H.
Qed.
End strings.

Section persister.
Implicit Types (fs : filesystem) (path : string).

Lemma path_exists_true path fs : path_exists path fs = true ↔ path ∈ dom (files fs).
Proof. unfold path_exists. by rewrite bool_decide_eq_true, elem_of_dom. Qed.

(** The probing loop ends, on a path that does not exist, when it has more
    turns than there are files: the candidates differ from one another, so
    they cannot all exist. *)
Lemma unique_path_fresh fs (candidate : N → string) :
  (∀ c c', candidate c = candidate c' → c = c') →
  ∀ fuel path counter (seen : gset string),
    seen ⊆ dom (files fs) → path ∉ seen →
    (∀ c, (counter ≤ c)%N → (candidate c ∉ seen) ∧ candidate c ≠ path) →
    (size (files fs) < fuel + size seen)%nat →
    ∃ p, unique_path fs candidate fuel path counter = Some p ∧ files fs !! p = None.
Proof.
  intros Hinj.
  assert (∀ path (seen : gset string),
            seen ⊆ dom (files fs) → path ∉ seen → path ∈ dom (files fs) →
            {[path]} ∪ seen ⊆ dom (files fs)
            ∧ size ({[path]} ∪ seen) = S (size seen)) as Hgrow.
  { intros path seen Hseen Hpath Hex. split.
    - apply union_subseteq. split; [by apply singleton_subseteq_l|done].
    - rewrite size_union, size_singleton; [done|]. by apply disjoint_singleton_l. }
  induction fuel as [|fuel IH]; intros path counter seen Hseen Hpath Hnew Hsize;
    cbn [unique_path]; destruct (path_exists path fs) eqn:Hex.
  - apply path_exists_true in Hex.
    destruct (Hgrow _ _ Hseen Hpath Hex) as [Hsub Hsz].
    apply subseteq_size in Hsub. rewrite size_dom in Hsub. lia.
  - exists path. split; [done|].
    apply not_elem_of_dom. rewrite <-path_exists_true. by rewrite Hex.
  - apply path_exists_true in Hex.
    destruct (Hgrow _ _ Hseen Hpath Hex) as [Hsub Hsz].
    apply (IH _ _ ({[path]} ∪ seen)); [done|..].
    + destruct (Hnew counter) as [? ?]; [lia|].
      rewrite not_elem_of_union, not_elem_of_singleton. done.
    + intros c Hc. destruct (Hnew c) as [? ?]; [lia|]. split.
      * rewrite not_elem_of_union, not_elem_of_singleton. done.
      * intros Heq%Hinj. lia.
    + lia.
  - exists path. split; [done|].
    apply not_elem_of_dom. rewrite <-path_exists_true. by rewrite Hex.
Qed.

(** [save_uploaded_credential] finishes when its loop has more turns than
    there are files, and then it either reports an error and writes nothing,
    or writes the document under a path that did not exist: it never
    overwrites a file. *)
Lemma save_uploaded_credential_never_overwrites dir json_loads file_content
    original_filename timestamp fuel fs :
  (size (files fs) < fuel)%nat →
  ∃ r fs',
    save_uploaded_credential dir json_loads file_content original_filename timestamp fuel fs
    = Some (r, fs')
    ∧ match r with
      | Uploaded file_path project_id =>
          ∃ path data,
            files fs !! path = None ∧ files fs' = <[path := data]> (files fs)
            ∧ file_path = basename path
      | UploadError _ => fs' = fs
      end.
Proof.
  intros Hfuel. unfold save_uploaded_credential.
  destruct (validate_credential_file _ _) as [[data|has]|error];
    [|by eexists _, _..].
  set (base := splitext_root original_filename).
  set (candidate := fun counter : N => path_join dir _).
  destruct (unique_path_fresh fs candidate) with
    (fuel := fuel) (path := path_join dir (base +:+ "-" +:+ str_N timestamp +:+ ".json"))
    (counter := 1%N) (seen := (∅ : gset string)) as (p & -> & Hp).
  - intros c c' Heq. unfold candidate in Heq.
    apply path_join_inj in Heq; [|apply prefix_slash_append].
    do 4 apply append_inj_l in Heq. by apply append_inj_r, str_N_inj in Heq.
  - apply empty_subseteq.
  - apply not_elem_of_empty.
  - intros c _. split; [apply not_elem_of_empty|]. unfold candidate. intros Heq.
    apply path_join_inj in Heq; [|apply prefix_slash_append].
    do 3 apply append_inj_l in Heq. done.
  - rewrite size_empty. lia.
  - cbn. unfold write_json. destruct (open_error fs p).
    + by eexists _, _.
    + eexists _, _. split; [reflexivity|]. cbn. exists p. by exists data.
Qed.

(** [save_credentials] writes to the path made of the project id and the
    second of the call, whether or not a file exists there. *)
Lemma save_credentials_writes dir creds project_id timestamp fs :
  let path := path_join dir (project_id +:+ "-" +:+ str_N timestamp +:+ ".json") in
  open_error fs path = None →
  ∃ fs', save_credentials dir creds project_id timestamp fs = Ok (path, fs')
    ∧ files fs' = <[path := creds_data creds project_id]> (files fs).
Proof.
  intros path Hopen. unfold save_credentials, write_json. fold path. rewrite Hopen.
  cbn. eauto.
Qed.

(** C5, the failing input.  Two credentials for the same project saved by
    [save_credentials] within the same second: both calls return the same
    path, and the directory holds one file, with the second credential; the
    first credential is gone. *)
Theorem save_credentials_overwrites_within_a_second :
  let fs0 := Filesystem ∅ (fun _ => None) in
  let first := Credentials "ya29.first" (Some "1//first") None None in
  let second := Credentials "ya29.second" (Some "1//second") None None in
  ∃ fs1 fs2,
    save_credentials "creds" first "my-project" 1700000000 fs0
    = Ok ("creds/my-project-1700000000.json", fs1)
    ∧ save_credentials "creds" second "my-project" 1700000000 fs1
      = Ok ("creds/my-project-1700000000.json", fs2)
    ∧ files fs1 = {["creds/my-project-1700000000.json" := creds_data first "my-project"]}
    ∧ files fs2 = {["creds/my-project-1700000000.json" := creds_data second "my-project"]}
    ∧ creds_data first "my-project" ≠ creds_data second "my-project".
Proof.
  cbv zeta. eexists _, _. split_and!; [reflexivity|reflexivity|by vm_compute..].
Qed.

(** The upload path on the same kind of input: the second upload of a name
    within the same second goes to a second file, suffixed [-1]. *)
Example save_uploaded_credential_twice :
  let fs0 := Filesystem ∅ (fun _ => None) in
  let doc :=
    [ ("client_id", JStr "id"); ("client_secret", JStr "secret");
      ("refresh_token", JStr "1//r"); ("token_uri", JStr "uri") ] in
  let json_loads := fun _ : string => Ok (JObject doc) in
  ∃ fs1 fs2,
    save_uploaded_credential "creds" json_loads "{...}" "acct.json" 1700000000 1 fs0
    = Some (Uploaded "acct-1700000000.json" (JStr "unknown"), fs1)
    ∧ save_uploaded_credential "creds" json_loads "{...}" "acct.json" 1700000000 2 fs1
      = Some (Uploaded "acct-1700000000-1.json" (JStr "unknown"), fs2)
    ∧ files fs2 = {[ "creds/acct-1700000000.json" := doc;
                     "creds/acct-1700000000-1.json" := doc ]}.
Proof.
  cbv zeta. eexists _, _. split_and!; [by vm_compute|by vm_compute|by vm_compute].
Qed.

End persister.

(** ** The callback waiters *)

Section interference.
Implicit Types (w : world) (state : string) (a b : nat).

Lemma mutate_well_formed b f w :
  (∀ d, is_Some (flow_data.created_at d) → is_Some (flow_data.created_at (f d))) →
  well_formed w → well_formed (mutate b f w).
Proof.
  intros Hf [Hs Ha Hc]. split; [done|done|].
  intros item Hin. destruct (Hc item Hin) as (d & Hd & Ht).
  unfold mutate. cbn [heap]. rewrite list_lookup_alter.
  case_decide as Hb; [|by exists d].
  subst b. rewrite Hd. exists (f d). split; [done|by apply Hf].
Qed.

Lemma held_mutate state a b f w :
  (∀ d, is_Some (flow_data.created_at d) → is_Some (flow_data.created_at (f d))) →
  b ∈ (auth_flows w).*2 →
  held state a w → held state a (mutate b f w).
Proof.
  intros Hf Hb [Hwf Hcase]. split; [by apply mutate_well_formed|].
  destruct Hcase as [Hin|(Hs & Ha & Hempty)]; [by left|right].
  split_and!; [done|done|].
  unfold mutate. cbn [heap]. rewrite list_lookup_alter_ne; [done|congruence].
Qed.

Lemma held_do_GET state a q w : held state a w → held state a (do_GET q w).2.
Proof.
  intros Hheld. unfold do_GET.
  destruct (first_value "state" q) as [s|]; [|done].
  destruct (_ && _); [|done].
  unfold getitem. destruct (dict_get s (auth_flows w)) as [b|] eqn:Hb; [|done].
  cbn [snd].
  assert (b ∈ (auth_flows w).*2) as Hin.
  { apply list_elem_of_fmap. exists (s, b). split; [done|]. by apply dict_get_elem_of. }
  apply held_mutate; [done|done|]. by apply held_mutate.
Qed.

Lemma held_sweep state a now w w' :
  cleanup_expired_flows now w = Ok w' → held state a w → held state a w'.
Proof.
  intros Hsweep [Hwf Hcase].
  split; [by eapply cleanup_expired_flows_well_formed|].
  destruct (cleanup_expired_flows_spec now w Hwf) as (w'' & Heq & Ht & _ & Hh).
  rewrite Heq in Hsweep. injection Hsweep as ->.
  destruct Hwf as [Hs Ha Hc]. rewrite Ht.
  destruct Hcase as [Hin|(Hstate & Haddr & Hempty)].
  - destruct (decide (is_expired now w (state, a))) as [Hexp|Hexp].
    + right. split_and!.
      * intros (item & Hkey & [Hexp' Hin']%list_elem_of_filter)%list_elem_of_fmap.
        by rewrite <-(NoDup_fmap_eq fst _ _ _ Hs Hin Hin' Hkey) in Hexp'.
      * intros (item & Hkey & [Hexp' Hin']%list_elem_of_filter)%list_elem_of_fmap.
        by rewrite <-(NoDup_fmap_eq snd _ _ _ Ha Hin Hin' Hkey) in Hexp'.
      * rewrite Hh, decide_True.
        -- destruct (Hc _ Hin) as (d & Hd & _). cbn [snd] in Hd. by rewrite Hd.
        -- apply list_elem_of_fmap. exists (state, a). split; [done|].
           by apply list_elem_of_filter.
    + left. by apply list_elem_of_filter.
  - right. split_and!.
    + intros (item & Hkey & [_ Hin']%list_elem_of_filter)%list_elem_of_fmap.
      apply Hstate. apply list_elem_of_fmap. by exists item.
    + intros (item & Hkey & [_ Hin']%list_elem_of_filter)%list_elem_of_fmap.
      apply Haddr. apply list_elem_of_fmap. by exists item.
    + rewrite Hh, decide_False; [done|].
      intros (item & Hkey & [_ Hin']%list_elem_of_filter)%list_elem_of_fmap.
      apply Haddr. apply list_elem_of_fmap. by exists item.
Qed.

Lemma held_memory_guard state a now w n w' :
  cleanup_auth_flows_for_memory now w = Ok (n, w') → held state a w → held state a w'.
Proof.
  intros Hrun Hheld. pose proof Hheld as [Hwf _].
  destruct (cleanup_auth_flows_for_memory_spec now w Hwf)
    as (w1 & w2 & Hsweep & Heq & Hs2 & Ha2 & Hkept & Hdropped & Hframe & _ & _).
  rewrite Heq in Hrun. injection Hrun as _ <-.
  destruct (held_sweep state a now w w1 Hsweep Hheld) as [[Hs1 Ha1 Hc1] Hcase].
  split.
  - split; [done|done|].
    intros item Hin. destruct (Hkept _ Hin) as [Hin1 ->]. by apply Hc1.
  - destruct Hcase as [Hin|(Hstate & Haddr & Hempty)].
    + destruct (decide ((state, a) ∈ auth_flows w2)) as [Hin2|Hin2]; [by left|right].
      destruct (Hdropped _ Hin Hin2) as (Hkey & Hcleared & _). split_and!; [done| |done].
      intros (item & Haddr & Hitem)%list_elem_of_fmap.
      destruct (Hkept _ Hitem) as [Hitem1 _].
      by rewrite <-(NoDup_fmap_eq snd _ _ _ Ha1 Hin Hitem1 Haddr) in Hitem.
    + right. split_and!.
      * intros (item & Hkey & Hitem)%list_elem_of_fmap.
        apply Hstate. apply list_elem_of_fmap. exists item. split; [done|].
        by apply Hkept.
      * intros (item & Hkey & Hitem)%list_elem_of_fmap.
        apply Haddr. apply list_elem_of_fmap. exists item. split; [done|].
        by apply Hkept.
      * by rewrite Hframe.
Qed.


Lemma dict_set_elem_of_ne {V} k (v : V) (d : list (string * V)) item :
  item ∈ d → item.1 ≠ k → item ∈ dict_set k v d.
Proof.
  induction d as [|[k' v'] d IH]; cbn [dict_set]; intros Hin Hne.
  { by apply elem_of_nil in Hin. }
  apply elem_of_cons in Hin as [->|Hin].
  - cbn [fst] in Hne. rewrite decide_False by done. left.
  - destruct (decide (k = k')); right; [done|]. by apply IH.
Qed.

Lemma held_register state a st d w :
  st ≠ state → is_Some (flow_data.created_at d) →
  held state a w → held state a (register st d w).
Proof.
  intros Hst Hd [Hwf Hcase]. split; [by apply register_well_formed|].
  unfold register. cbn [auth_flows heap].
  destruct Hcase as [Hin|(Hstate & Haddr & Hempty)].
  - left. apply dict_set_elem_of_ne; [done|]. cbn [fst]. congruence.
  - right. split_and!.
    + rewrite dict_set_keys. case_decide; [done|].
      rewrite not_elem_of_app, not_elem_of_cons. split_and!; [done|congruence|].
      apply not_elem_of_nil.
    + intros (item & Hkey & [->|Hitem]%dict_set_elem_of)%list_elem_of_fmap.
      * cbn [snd] in Hkey. apply lookup_lt_Some in Hempty. lia.
      * apply Haddr. apply list_elem_of_fmap. by exists item.
    + by apply lookup_app_l_Some.
Qed.

Lemma create_auth_url_world P project_id user_session created swept w :
  (create_auth_url P project_id user_session created swept w).2 = w
  ∨ ∃ d, is_Some (flow_data.created_at d)
      ∧ ((create_auth_url P project_id user_session created swept w).2
         = register (new_state P user_session) d w
         ∨ cleanup_expired_flows swept (register (new_state P user_session) d w)
           = Ok (create_auth_url P project_id user_session created swept w).2).
Proof.
  unfold create_auth_url.
  destruct (find_available_port P) as [port|e]; [|by left].
  destruct (start_listener P port) as [[srv th]|e]; [|by left].
  destruct (authorization_url P _ _) as [url|e]; [|by left].
  right. eexists. split; [|destruct (cleanup_expired_flows swept _) as [w1|e] eqn:Hsweep].
  2: { right. exact Hsweep. }
  2: { by left. }
  by eexists.
Qed.

(** An operation that does not register the waiter's state keeps the
    waiter's reference as it is described by [held]. *)
Lemma held_perform state a w op :
  registers op ≠ Some state → held state a w → held state a (perform w op).
Proof.
  intros Hreg Hheld. destruct op as [q|now|now|P project_id user_session created swept];
    cbn [perform].
  - by apply held_do_GET.
  - destruct (cleanup_expired_flows now w) as [w'|e] eqn:Hsweep; [|done].
    by eapply held_sweep.
  - destruct (cleanup_auth_flows_for_memory now w) as [[n w']|e] eqn:Hrun; [|done].
    by eapply held_memory_guard.
  - cbn [registers] in Hreg.
    destruct (create_auth_url_world P project_id user_session created swept w)
      as [->|(d & Hd & [->|Hsweep])]; [done| |].
    + apply held_register; [congruence|done|done].
    + eapply held_sweep; [exact Hsweep|].
      apply held_register; [congruence|done|done].
Qed.

Lemma held_foldl_perform state a ops : ∀ w,
  (∀ op, op ∈ ops → registers op ≠ Some state) →
  held state a w → held state a (foldl perform w ops).
Proof.
  induction ops as [|op ops IH]; intros w Hops Hheld; cbn [foldl]; [done|].
  apply IH.
  - intros op' Hin. apply Hops. by right.
  - apply held_perform; [|done]. apply Hops. left.
Qed.

Lemma held_world_at state a time ops w i :
  (∀ i op, op ∈ ops i → registers op ≠ Some state) →
  held state a w → held state a (world_at (busy time ops) w i).
Proof.
  intros Hops Hheld. induction i as [|i IH]; cbn [world_at]; [done|].
  cbn [busy sleep]. apply held_foldl_perform; [apply Hops|done].
Qed.

(** The waiter's refresh keeps the reference. *)
Lemma held_refresh state a w :
  held state a w → default a (dict_get state (auth_flows w)) = a.
Proof.
  intros [[Hs _ _] [Hin|(Hstate & _)]].
  - by rewrite (elem_of_dict_get _ _ _ Hs Hin).
  - by rewrite (dict_get_not_in _ _ Hstate).
Qed.

(** A record that is no longer registered shows no code. *)
Lemma held_no_code state a w :
  held state a w →
  (state ∈ (auth_flows w).*1 → truthy (flow_data.get_code (deref w a)) = false) →
  truthy (flow_data.get_code (deref w a)) = false.
Proof.
  intros [_ [Hin|(_ & _ & Hempty)]] Hreg.
  - apply Hreg. apply list_elem_of_fmap. by exists (state, a).
  - by rewrite (deref_lookup _ _ _ Hempty).
Qed.

End interference.

Section waiters.
Implicit Types (w : world) (state : string) (a : nat) (sch : schedule).

(** The blocking loop of a waiter that sees no code: it ends at the first
    turn that finds the deadline passed, with [None]. *)
Lemma wait_loop_times_out state timeout start_time sch w a :
  (∀ i, default a (dict_get state (auth_flows (world_at sch w i))) = a) →
  (∀ i, truthy (flow_data.get_code (deref (world_at sch w i) a)) = false) →
  ∀ n fuel j, (n < fuel)%nat →
    (∀ i, (j ≤ i < j + n)%nat → clock sch (S i) - start_time < timeout) →
    ¬ (clock sch (S (j + n)) - start_time < timeout) →
    wait_loop state timeout start_time sch fuel j a (world_at sch w j)
    = Some (None, world_at sch w (j + n)%nat).
Proof.
  intros Href Hcode. induction n as [|n IH]; intros fuel j Hfuel Hbefore Hafter;
    (destruct fuel as [|fuel]; [lia|]); cbn [wait_loop].
  - rewrite Nat.add_0_r in *. by rewrite bool_decide_eq_false_2.
  - rewrite bool_decide_eq_true_2 by (apply Hbefore; lia).
    rewrite Hcode.
    change (sleep sch j (world_at sch w j)) with (world_at sch w (S j)).
    rewrite Href, (IH fuel (S j)).
    + do 3 f_equal. lia.
    + lia.
    + intros i Hi. apply Hbefore. lia.
    + by replace (S j + n)%nat with (j + S n)%nat by lia.
Qed.

(** The cooperative loop of a waiter that sees no code runs all its turns. *)
Lemma poll_times_out state sch w a :
  (∀ i, default a (dict_get state (auth_flows (world_at sch w i))) = a) →
  (∀ i, truthy (flow_data.get_code (deref (world_at sch w i) a)) = false) →
  ∀ n j, poll state sch n j a (world_at sch w j) = (a, world_at sch w (j + n)%nat).
Proof.
  intros Href Hcode. induction n as [|n IH]; intros j; cbn [poll].
  - by rewrite Nat.add_0_r.
  - rewrite Hcode.
    change (sleep sch j (world_at sch w j)) with (world_at sch w (S j)).
    rewrite Href, IH. do 2 f_equal. lia.
Qed.


(** X1. A waiter for the flow of state S, registered when the wait begins,
    that sees no code while the flow is registered returns its timed-out
    result at its deadline, whether the flow is still registered then or has
    been removed meanwhile by an expiry sweep or by the memory guard: [None]
    from [wait_for_callback_sync], the time-out failure from
    [asyncio_complete_auth_flow].  A removal while polling is not reported as
    "not found"; [wait_for_callback_sync] returns [None] as well for a state
    that is not registered when the wait begins.  The other threads and
    tasks run callbacks, sweeps, the memory guard and creations of flows
    under other states. *)
Theorem waiters_time_out_on_a_removed_flow time ops state a w :
  well_formed w → dict_get state (auth_flows w) = Some a →
  is_Some (flow_data.callback_port (deref w a)) →
  (∀ i op, op ∈ ops i → registers op ≠ Some state) →
  (∀ i, state ∈ (auth_flows (world_at (busy time ops) w i)).*1 →
        truthy (flow_data.get_code (deref (world_at (busy time ops) w i) a)) = false) →
  (∀ timeout fuel n, (n < fuel)%nat →
     (∀ i, (i < n)%nat → time (S i) - time 0%nat < timeout) →
     ¬ (time (S n) - time 0%nat < timeout) →
     wait_for_callback_sync state timeout (busy time ops) fuel w
     = Some (Ok None, world_at (busy time ops) w n))
  ∧ (∀ P project_id user_session v fs,
       find_flow project_id user_session w = Ok (Some (state, a)) →
       truthy project_id = true
       ∨ (default false (flow_data.auto_project_detection (deref w a)) = true
          ∧ truthy (auto_detect_project_id P) = false) →
       asyncio_complete_auth_flow P (busy time ops) project_id user_session (Process w v fs)
       = (Some (AuthFailure CALLBACK_TIMEOUT false),
          Process (world_at (busy time ops) w 60) v fs))
  ∧ (∀ absent timeout sch fuel, dict_get absent (auth_flows w) = None →
       wait_for_callback_sync absent timeout sch fuel w = Some (Ok None, w)).
Proof.
  intros Hwf Hget [port Hport] Hops Hseen.
  set (sch := busy time ops) in *.
  assert (held state a w) as Hheld.
  { split; [done|]. left. by apply dict_get_elem_of. }
  assert (∀ i, held state a (world_at sch w i)) as Hheld_at.
  { intros i. by apply held_world_at. }
  assert (∀ i, default a (dict_get state (auth_flows (world_at sch w i))) = a) as Href.
  { intros i. by apply held_refresh. }
  assert (∀ i, truthy (flow_data.get_code (deref (world_at sch w i) a)) = false) as Hcode.
  { intros i. apply (held_no_code state); [apply Hheld_at|apply Hseen]. }
  split_and!.
  - intros timeout fuel n Hfuel Hbefore Hafter.
    unfold wait_for_callback_sync, getitem.
    rewrite (dict_in_Some _ _ _ Hget), Hget, Hport.
    pose proof (wait_loop_times_out state timeout (clock sch 0%nat) sch w a Href Hcode
                  n fuel 0%nat Hfuel) as Hloop.
    change (world_at sch w 0) with w in Hloop.
    change (0 + n)%nat with n in Hloop. rewrite Hloop; [done| |exact Hafter].
    intros i Hi. apply Hbefore. lia.
  - intros P project_id user_session v fs Hfind Hproject.
    pose proof (poll_times_out state sch w a Href Hcode 60 0) as Hpoll.
    change (world_at sch w 0) with w in Hpoll.
    change (0 + 60)%nat with 60%nat in Hpoll.
    unfold asyncio_complete_auth_flow, and_then, get_flows, of_res, load.
    cbn [flows]. rewrite Hfind. cbn [flows].
    destruct Hproject as [Hp|[Hauto Hdetect]].
    + rewrite Hp, andb_false_r. cbn [negb]. unfold next at 1. cbn [flows].
      rewrite Hpoll. unfold on_flows at 1. cbn [flows].
      rewrite Hcode. done.
    + rewrite Hauto, Hdetect. destruct (truthy project_id); cbn [negb andb];
        unfold next at 1; cbn [flows]; rewrite Hpoll; unfold on_flows at 1; cbn [flows];
        rewrite Hcode; done.
  - intros absent timeout sch' fuel Habsent.
    unfold wait_for_callback_sync. by rewrite (dict_in_None _ _ Habsent).
Qed.

Lemma swept_at_first_worlds i :
  world_at swept_at_first one_flow (S i)
  = World [flow_data.empty] [] [Shutdown 1 (Some 8080); Del "S"].
Proof.
  induction i as [|i IH]; [by vm_compute|].
  change (world_at swept_at_first one_flow (S (S i)))
    with (sleep swept_at_first (S i) (world_at swept_at_first one_flow (S i))).
  by rewrite IH.
Qed.

Lemma one_flow_well_formed : well_formed one_flow.
Proof.
  split.
  - apply (bool_decide_unpack _). by vm_compute.
  - apply (bool_decide_unpack _). by vm_compute.
  - apply Forall_forall.
    repeat (constructor; [eexists; split; [reflexivity|by eexists]|]).
    constructor.
Qed.

Lemma waiters_time_out_on_a_removed_flow_witness :
  let time := fun i => 2000 + Z.of_nat i in
  let ops := fun i => match i with O => [Sweep 2000] | _ => [] end in
  well_formed one_flow
  ∧ dict_get "S" (auth_flows one_flow) = Some 0%nat
  ∧ is_Some (flow_data.callback_port (deref one_flow 0))
  ∧ (∀ i op, op ∈ ops i → registers op ≠ Some "S")
  ∧ (∀ i, "S" ∈ (auth_flows (world_at (busy time ops) one_flow i)).*1 →
          truthy (flow_data.get_code (deref (world_at (busy time ops) one_flow i) 0)) = false)
  ∧ (∀ timeout fuel n, (n < fuel)%nat →
       (∀ i, (i < n)%nat → time (S i) - time 0%nat < timeout) →
       ¬ (time (S n) - time 0%nat < timeout) →
       wait_for_callback_sync "S" timeout (busy time ops) fuel one_flow
       = Some (Ok None, world_at (busy time ops) one_flow n))
  ∧ (∀ P project_id user_session v fs,
       find_flow project_id user_session one_flow = Ok (Some ("S", 0%nat)) →
       truthy project_id = true
       ∨ (default false (flow_data.auto_project_detection (deref one_flow 0)) = true
          ∧ truthy (auto_detect_project_id P) = false) →
       asyncio_complete_auth_flow P (busy time ops) project_id user_session
         (Process one_flow v fs)
       = (Some (AuthFailure CALLBACK_TIMEOUT false),
          Process (world_at (busy time ops) one_flow 60) v fs))
  ∧ (∀ absent timeout sch fuel, dict_get absent (auth_flows one_flow) = None →
       wait_for_callback_sync absent timeout sch fuel one_flow = Some (Ok None, one_flow)).
Proof.
  intros time ops.
  assert (∀ i op, op ∈ ops i → registers op ≠ Some "S") as Hops.
  { intros [|i] op Hop; cbn in Hop.
    - apply list_elem_of_singleton in Hop as ->. done.
    - by apply elem_of_nil in Hop. }
  assert (∀ i, "S" ∈ (auth_flows (world_at (busy time ops) one_flow i)).*1 →
            truthy (flow_data.get_code (deref (world_at (busy time ops) one_flow i) 0)) = false)
    as Hseen.
  { intros [|i] Hin; [done|].
    change (busy time ops) with swept_at_first in Hin.
    rewrite swept_at_first_worlds in Hin. by apply elem_of_nil in Hin. }
  assert (is_Some (flow_data.callback_port (deref one_flow 0))) as Hport by by eexists.
  split_and!; [exact one_flow_well_formed|done|done|done|done|..];
    apply (waiters_time_out_on_a_removed_flow time ops "S" 0%nat one_flow
             one_flow_well_formed eq_refl Hport Hops Hseen).
Defined.

(** The run behind the witness: the flow, created at 1000, is swept at 2000
    while the waiter sleeps for the first time.  Both waiters return what
    they return when nothing happens at all until the deadline. *)
Example removed_flow_is_reported_as_timed_out :
  wait_for_callback_sync "S" 2 swept_at_first 5 one_flow
  = Some (Ok None, World [flow_data.empty] [] [Shutdown 1 (Some 8080); Del "S"])
  ∧ wait_for_callback_sync "S" 2 idle 5 one_flow = Some (Ok None, one_flow)
  ∧ (asyncio_complete_auth_flow (granting None []) swept_at_first None None
       (sample_process one_flow)).1
    = Some (AuthFailure CALLBACK_TIMEOUT false)
  ∧ (asyncio_complete_auth_flow (granting None []) idle None None
       (sample_process one_flow)).1
    = Some (AuthFailure CALLBACK_TIMEOUT false).
Proof. split_and!; by vm_compute. Qed.

End waiters.

(** ** More on the waiters and on what runs beside them *)

Section waiters_more.
Implicit Types (w : world) (state : string) (a : nat) (sch : schedule).

Lemma wait_loop_returns_code state timeout start_time sch w a c :
  c ≠ "" →
  ∀ n fuel j, (n < fuel)%nat →
    (∀ i, (j ≤ i ≤ j + n)%nat → clock sch (S i) - start_time < timeout) →
    (∀ i, (j ≤ i < j + n)%nat →
       truthy (flow_data.get_code (deref (world_at sch w i) (ref_at state sch w a i))) = false) →
    flow_data.get_code (deref (world_at sch w (j + n)) (ref_at state sch w a (j + n))) = Some c →
    wait_loop state timeout start_time sch fuel j (ref_at state sch w a j) (world_at sch w j)
    = Some (Some c, world_at sch w (j + n)%nat).
Proof.
  intros Hc. induction n as [|n IH]; intros fuel j Hfuel Htime Hnone Hcode;
    (destruct fuel as [|fuel]; [lia|]); cbn [wait_loop];
    rewrite bool_decide_eq_true_2 by (apply Htime; lia).
  - rewrite Nat.add_0_r in Hcode. rewrite Hcode, truthy_Some by done.
    by rewrite Nat.add_0_r.
  - rewrite Hnone by lia.
    change (sleep sch j (world_at sch w j)) with (world_at sch w (S j)).
    change (default (ref_at state sch w a j) (dict_get state (auth_flows (world_at sch w (S j)))))
      with (ref_at state sch w a (S j)).
    replace (j + S n)%nat with (S j + n)%nat in * by lia.
    apply IH; [lia| | |done].
    + intros i Hi. apply Htime. lia.
    + intros i Hi. apply Hnone. lia.
Qed.

(** X2. [wait_for_callback_sync] returns the code at the first of its turns
    at which the record it holds shows one, provided that turn still finds
    the deadline ahead: a code is returned within one polling interval of its
    arrival. *)
Theorem wait_for_callback_sync_returns_code state timeout sch fuel w a k c :
  dict_get state (auth_flows w) = Some a →
  is_Some (flow_data.callback_port (deref w a)) →
  (k < fuel)%nat →
  (∀ i, (i ≤ k)%nat → clock sch (S i) - clock sch 0 < timeout) →
  (∀ i, (i < k)%nat →
     truthy (flow_data.get_code (deref (world_at sch w i) (ref_at state sch w a i))) = false) →
  flow_data.get_code (deref (world_at sch w k) (ref_at state sch w a k)) = Some c →
  c ≠ "" →
  wait_for_callback_sync state timeout sch fuel w = Some (Ok (Some c), world_at sch w k).
Proof.
  intros Hget [port Hport] Hfuel Htime Hnone Hcode Hc.
  unfold wait_for_callback_sync, getitem.
  rewrite (dict_in_Some _ _ _ Hget), Hget, Hport.
  pose proof (wait_loop_returns_code state timeout (clock sch 0) sch w a c Hc k fuel 0 Hfuel)
    as Hloop.
  change (world_at sch w 0) with w in Hloop.
  change (ref_at state sch w a 0) with a in Hloop.
  change (0 + k)%nat with k in Hloop.
  rewrite Hloop; [done| | |done].
  - intros i Hi. apply Htime. lia.
  - intros i Hi. apply Hnone. lia.
Qed.

Lemma wait_for_callback_sync_returns_code_witness :
  dict_get "S" (auth_flows one_flow) = Some 0%nat
  ∧ is_Some (flow_data.callback_port (deref one_flow 0))
  ∧ (2 < 10)%nat
  ∧ (∀ i, (i ≤ 2)%nat → clock callback_at_second (S i) - clock callback_at_second 0 < 300)
  ∧ (∀ i, (i < 2)%nat →
       truthy (flow_data.get_code
                 (deref (world_at callback_at_second one_flow i)
                    (ref_at "S" callback_at_second one_flow 0 i))) = false)
  ∧ flow_data.get_code
      (deref (world_at callback_at_second one_flow 2)
         (ref_at "S" callback_at_second one_flow 0 2)) = Some "4/0AbUR2VM"
  ∧ "4/0AbUR2VM" ≠ ""
  ∧ wait_for_callback_sync "S" 300 callback_at_second 10 one_flow
    = Some (Ok (Some "4/0AbUR2VM"), world_at callback_at_second one_flow 2).
Proof.
  assert (is_Some (flow_data.callback_port (deref one_flow 0))) as Hport by by eexists.
  assert (∀ i, (i ≤ 2)%nat →
            clock callback_at_second (S i) - clock callback_at_second 0 < 300) as Htime.
  { intros i Hi. cbn [callback_at_second busy clock]. lia. }
  assert (∀ i, (i < 2)%nat →
            truthy (flow_data.get_code
                      (deref (world_at callback_at_second one_flow i)
                         (ref_at "S" callback_at_second one_flow 0 i))) = false) as Hnone.
  { intros [|[|i]] Hi; [by vm_compute|by vm_compute|lia]. }
  assert ("4/0AbUR2VM" ≠ "") as Hc by discriminate.
  split_and!; [reflexivity|done|lia|done|done|by vm_compute|done|].
  apply (wait_for_callback_sync_returns_code "S" 300 callback_at_second 10 one_flow 0 2
           "4/0AbUR2VM" eq_refl Hport); [lia|done|done|by vm_compute|done].
Defined.

Lemma wait_loop_finishes state timeout start_time sch :
  ∀ n fuel j a w, (n < fuel)%nat →
    ¬ (clock sch (S (j + n)) - start_time < timeout) →
    ∃ r w', wait_loop state timeout start_time sch fuel j a w = Some (r, w')
      ∧ ∀ c, r = Some c → c ≠ "".
Proof.
  induction n as [|n IH]; intros fuel j a w Hfuel Hlate;
    (destruct fuel as [|fuel]; [lia|]); cbn [wait_loop].
  - rewrite Nat.add_0_r in Hlate. rewrite bool_decide_eq_false_2 by done.
    eexists _, _. split; [done|]. by intros c [=].
  - case_bool_decide; [|by eexists _, _; split; [done|]; intros c [=]].
    destruct (truthy (flow_data.get_code (deref w a))) eqn:Hcode.
    + eexists _, _. split; [done|].
      intros c Hc. apply truthy_inv in Hcode as (c' & Hc' & Hne). congruence.
    + apply IH; [lia|]. by replace (S j + n)%nat with (j + S n)%nat by lia.
Qed.

(** X3. Whatever the other threads do to the flow store,
    [wait_for_callback_sync] returns by the first turn at which its clock
    reading has reached the deadline, and a code that it returns is not
    empty. *)
Theorem wait_for_callback_sync_finishes state timeout sch fuel w n :
  (n < fuel)%nat →
  ¬ (clock sch (S n) - clock sch 0 < timeout) →
  ∃ r w', wait_for_callback_sync state timeout sch fuel w = Some (r, w')
    ∧ ∀ c, r = Ok (Some c) → c ≠ "".
Proof.
  intros Hfuel Hlate. unfold wait_for_callback_sync.
  destruct (dict_in state (auth_flows w)); [|by eexists _, _; split; [done|]; intros c [=]].
  destruct (getitem state w) as [a|e]; [|by eexists _, _; split; [done|]; intros c [=]].
  destruct (flow_data.callback_port (deref w a));
    [|by eexists _, _; split; [done|]; intros c [=]].
  destruct (wait_loop_finishes state timeout (clock sch 0) sch n fuel 0 a w Hfuel Hlate)
    as (r & w' & -> & Hr).
  eexists _, _. split; [done|]. intros c [= ->]. by apply Hr.
Qed.

Lemma wait_for_callback_sync_finishes_witness :
  (2 < 5)%nat
  ∧ ¬ (clock swept_at_first (S 2) - clock swept_at_first 0 < 3)
  ∧ ∃ r w', wait_for_callback_sync "S" 3 swept_at_first 5 one_flow = Some (r, w')
      ∧ ∀ c, r = Ok (Some c) → c ≠ "".
Proof.
  assert (2 < 5)%nat as Hfuel by lia.
  assert (¬ (clock swept_at_first (S 2) - clock swept_at_first 0 < 3)) as Hlate.
  { cbn [swept_at_first busy clock]. lia. }
  exact (conj Hfuel (conj Hlate
           (wait_for_callback_sync_finishes "S" 3 swept_at_first 5 one_flow 2 Hfuel Hlate))).
Defined.

End waiters_more.

Section reachable.
Implicit Types (w : world) (state : string) (a : nat).

Lemma do_GET_well_formed q w : well_formed w → well_formed (do_GET q w).2.
Proof.
  intros Hwf. unfold do_GET.
  destruct (first_value "state" q) as [s|]; [|done].
  destruct (_ && _); [|done].
  destruct (getitem s w) as [b|]; [|done].
  cbn [snd]. apply mutate_well_formed; [done|]. by apply mutate_well_formed.
Qed.

Lemma cleanup_auth_flows_for_memory_well_formed now w n w' :
  well_formed w → cleanup_auth_flows_for_memory now w = Ok (n, w') → well_formed w'.
Proof.
  intros Hwf Hrun.
  destruct (cleanup_auth_flows_for_memory_spec now w Hwf)
    as (w1 & w2 & Hsweep & Heq & Hs2 & Ha2 & Hkept & _).
  rewrite Heq in Hrun. injection Hrun as _ <-.
  pose proof (cleanup_expired_flows_well_formed now w w1 Hwf Hsweep) as [_ _ Hc1].
  split; [done|done|].
  intros item Hin. destruct (Hkept _ Hin) as [Hin1 ->]. by apply Hc1.
Qed.

Lemma perform_well_formed w op : well_formed w → well_formed (perform w op).
Proof.
  intros Hwf. destruct op as [q|now|now|P project_id user_session created swept];
    cbn [perform].
  - by apply do_GET_well_formed.
  - destruct (cleanup_expired_flows now w) as [w'|e] eqn:Hsweep; [|done].
    by eapply cleanup_expired_flows_well_formed.
  - destruct (cleanup_auth_flows_for_memory now w) as [[n w']|e] eqn:Hrun; [|done].
    by eapply cleanup_auth_flows_for_memory_well_formed.
  - destruct (create_auth_url_world P project_id user_session created swept w)
      as [->|(d & Hd & [->|Hsweep])]; [done| |].
    + by apply register_well_formed.
    + eapply cleanup_expired_flows_well_formed; [|exact Hsweep].
      by apply register_well_formed.
Qed.

(** X4. Every store that the module reaches from the empty one, by creating
    flows, serving callbacks, sweeping and running the memory guard in any
    order, is well formed: no two flows share a state or a record, and every
    registered record has its creation time.  In particular the sweeps never
    raise on such a store. *)
Theorem reachable_stores_are_well_formed (ops : list operation) :
  well_formed (foldl perform (World [] [] []) ops)
  ∧ ∀ now, ∃ w', cleanup_expired_flows now (foldl perform (World [] [] []) ops) = Ok w'.
Proof.
  assert (well_formed (foldl perform (World [] [] []) ops)) as Hwf.
  { assert (well_formed (World [] [] [])) as Hempty.
    { split; cbn; [constructor|constructor|]. intros item Hin. by apply elem_of_nil in Hin. }
    revert Hempty. generalize (World [] [] []).
    induction ops as [|op ops IH]; intros w Hw; cbn [foldl]; [done|].
    apply IH. by apply perform_well_formed. }
  split; [done|]. intros now.
  destruct (cleanup_expired_flows_spec now _ Hwf) as (w' & Heq & _). eauto.
Qed.

Lemma absent_perform state w op :
  well_formed w → registers op ≠ Some state →
  state ∉ (auth_flows w).*1 → state ∉ (auth_flows (perform w op)).*1.
Proof.
  intros Hwf Hreg Habsent.
  assert (∀ now w0 w', well_formed w0 → state ∉ (auth_flows w0).*1 →
            cleanup_expired_flows now w0 = Ok w' → state ∉ (auth_flows w').*1) as Hsweep_absent.
  { intros now w0 w' Hwf0 Habs Hsweep.
    destruct (cleanup_expired_flows_spec now w0 Hwf0) as (w'' & Heq & Ht & _).
    rewrite Heq in Hsweep. injection Hsweep as <-. rewrite Ht.
    intros (item & Hkey & [_ Hin]%list_elem_of_filter)%list_elem_of_fmap.
    apply Habs. apply list_elem_of_fmap. by exists item. }
  assert (∀ st d, st ≠ state → state ∉ (auth_flows (register st d w)).*1) as Hregister.
  { intros st d Hst. unfold register. cbn [auth_flows]. rewrite dict_set_keys.
    case_decide; [done|].
    rewrite not_elem_of_app, not_elem_of_cons. split_and!; [done|congruence|].
    apply not_elem_of_nil. }
  destruct op as [q|now|now|P project_id user_session created swept]; cbn [perform].
  - unfold do_GET. destruct (first_value "state" q) as [s|]; [|done].
    destruct (_ && _); [|done]. by destruct (getitem s w).
  - destruct (cleanup_expired_flows now w) as [w'|e] eqn:Hsweep; [|done].
    by eapply Hsweep_absent.
  - destruct (cleanup_auth_flows_for_memory now w) as [[n w']|e] eqn:Hrun; [|done].
    destruct (cleanup_auth_flows_for_memory_spec now w Hwf)
      as (w1 & w2 & Hsweep & Heq & _ & _ & Hkept & _).
    rewrite Heq in Hrun. injection Hrun as _ <-.
    intros (item & Hkey & Hin)%list_elem_of_fmap.
    apply (Hsweep_absent now w w1 Hwf Habsent Hsweep).
    apply list_elem_of_fmap. exists item. split; [done|]. by apply Hkept.
  - cbn [registers] in Hreg.
    destruct (create_auth_url_world P project_id user_session created swept w)
      as [->|(d & Hd & [->|Hsweep])]; [done| |].
    + apply Hregister. congruence.
    + eapply Hsweep_absent; [|apply Hregister|exact Hsweep].
      * by apply register_well_formed.
      * congruence.
Qed.

(** X5. Once the flow of S has been removed by a sweep or by the memory
    guard, whatever callbacks, sweeps, memory-guard runs and creations of
    flows under other states follow, S stays unregistered and the cleared
    record that a waiter may still hold stays empty: no late callback
    delivers a code to it. *)
Theorem removed_record_stays_cleared state a w (ops : list operation) :
  held state a w → state ∉ (auth_flows w).*1 →
  (∀ op, op ∈ ops → registers op ≠ Some state) →
  (state ∉ (auth_flows (foldl perform w ops)).*1)
  ∧ heap (foldl perform w ops) !! a = Some flow_data.empty
  ∧ flow_data.get_code (deref (foldl perform w ops) a) = None.
Proof.
  revert w. induction ops as [|op ops IH]; intros w Hheld Habsent Hops; cbn [foldl].
  - destruct Hheld as [_ [Hin|(_ & _ & Hempty)]].
    + exfalso. apply Habsent. apply list_elem_of_fmap. by exists (state, a).
    + split_and!; [done|done|]. by rewrite (deref_lookup _ _ _ Hempty).
  - apply IH.
    + apply held_perform; [|done]. apply Hops. left.
    + apply absent_perform; [by destruct Hheld| |done]. apply Hops. left.
    + intros op' Hin. apply Hops. by right.
Qed.

Lemma removed_record_stays_cleared_witness :
  let ops :=
    [ Callback (callback_query "4/0AbUR2VM" "S");
      Create good_platform None (Some "alice") 2500 2500;
      Sweep 3000 ] in
  held "S" 0 swept_store
  ∧ ("S" ∉ (auth_flows swept_store).*1)
  ∧ (∀ op, op ∈ ops → registers op ≠ Some "S")
  ∧ ("S" ∉ (auth_flows (foldl perform swept_store ops)).*1)
  ∧ heap (foldl perform swept_store ops) !! 0%nat = Some flow_data.empty
  ∧ flow_data.get_code (deref (foldl perform swept_store ops) 0) = None.
Proof.
  intros ops.
  assert ("S" ∉ (auth_flows swept_store).*1) as Habsent by apply not_elem_of_nil.
  assert (held "S" 0 swept_store) as Hheld.
  { split.
    - split; cbn; [constructor|constructor|]. intros item Hin. by apply elem_of_nil in Hin.
    - right. split_and!; [done|apply not_elem_of_nil|done]. }
  assert (∀ op, op ∈ ops → registers op ≠ Some "S") as Hops.
  { intros op Hop. unfold ops in Hop.
    repeat (apply elem_of_cons in Hop as [->|Hop]; [by vm_compute|]).
    by apply elem_of_nil in Hop. }
  split_and!; [done|done|done|..];
    apply (removed_record_stays_cleared "S" 0%nat swept_store ops Hheld Habsent Hops).
Defined.

End reachable.

(** ** More on ports, creation and cleanup *)

Section ports.

Lemma first_bindable_Some bind port n p :
  first_bindable bind port n = Some p →
  port ≤ p < port + Z.of_nat n ∧ bind p = true
  ∧ ∀ q, port ≤ q < p → bind q = false.
Proof.
  revert port. induction n as [|n IH]; intros port; cbn [first_bindable]; [done|].
  destruct (bind port) eqn:Hb.
  - intros [= <-]. split_and!; [lia|lia|done|]. intros q Hq. lia.
  - intros Hp. destruct (IH _ Hp) as (Hrange & Hbind & Hleast).
    split_and!; [lia|lia|done|].
    intros q Hq. destruct (decide (q = port)) as [->|Hne]; [done|]. apply Hleast. lia.
Qed.

Lemma first_bindable_None bind port n :
  first_bindable bind port n = None →
  ∀ q, port ≤ q < port + Z.of_nat n → bind q = false.
Proof.
  revert port. induction n as [|n IH]; intros port; cbn [first_bindable].
  - intros _ q Hq. lia.
  - destruct (bind port) eqn:Hb; [done|]. intros Hnone q Hq.
    destruct (decide (q = port)) as [->|Hne]; [done|]. apply (IH _ Hnone). lia.
Qed.


(** A machine on which the first three ports of the range are taken *)
Example find_available_port_sample :
  find_available_port
    (Platform 8080 (fun port => bool_decide (8083 ≤ port)) (Ok 49152)
       (fun port => Ok (Z.to_nat port)) (fun srv => Ok srv) (fun _ _ => Ok "") "u")
  = Ok 8083
  ∧ find_available_port no_ports = Raise (RuntimeError "无法找到可用端口").
Proof. split; by vm_compute. Qed.

End ports.

Section creation.
Implicit Types (w : world) (P : platform).

(** X7. When [create_auth_url] reports success on a well-formed store and
    its two clock readings are no more than 600 seconds apart, the returned
    state is registered, and its record is the new one: on the returned port,
    created at the first reading, not completed and without a code; the
    state is the uuid, prefixed with the session and an underscore when a
    session is given. *)
Theorem create_auth_url_registers_the_flow P project_id user_session created swept w
    auth_url state port auto detected w' :
  well_formed w →
  swept - created ≤ 600 →
  create_auth_url P project_id user_session created swept w
  = (AuthUrl auth_url state port auto detected, w') →
  state = new_state P user_session
  ∧ ∃ d, flow_of state w' = Some d
      ∧ flow_data.code d = Some None
      ∧ flow_data.completed d = Some false
      ∧ flow_data.callback_port d = Some port
      ∧ flow_data.created_at d = Some created
      ∧ flow_data.project_id d = Some project_id
      ∧ flow_data.user_session d = Some user_session
      ∧ flow_data.auto_project_detection d = Some auto
      ∧ auto = bool_decide (project_id = None)
      ∧ detected = project_id.
Proof.
  intros Hwf Hage. unfold create_auth_url.
  destruct (find_available_port P) as [port'|e]; [|done].
  destruct (start_listener P port') as [[srv th]|e]; [|done].
  destruct (authorization_url P _ _) as [url|e]; [|done].
  set (d := flow_data.mk _ _ _ _ _ _ _ _ _ _ _).
  set (w1 := register (new_state P user_session) d w).
  destruct (cleanup_expired_flows swept w1) as [w2|e] eqn:Hsweep; [|done].
  intros [= <- <- <- <- <- <-]. split; [done|].
  assert (well_formed w1) as Hwf1 by (apply register_well_formed; [done|by eexists]).
  destruct (cleanup_expired_flows_spec swept w1 Hwf1) as (w'' & Heq & Ht & _ & Hh).
  rewrite Heq in Hsweep. injection Hsweep as ->.
  pose proof (cleanup_expired_flows_well_formed swept w1 w2 Hwf1 Heq) as [Hs2 _ _].
  set (a := length (heap w)).
  assert (heap w1 !! a = Some d) as Hd.
  { unfold w1, register. cbn [heap]. unfold a. by rewrite lookup_app_r, Nat.sub_diag. }
  assert ((new_state P user_session, a) ∈ auth_flows w1) as Hin.
  { unfold w1, register. cbn [auth_flows]. apply dict_get_elem_of.
    clear. induction (auth_flows w) as [|[k v] l IH]; cbn [dict_set dict_get].
    - by rewrite decide_True.
    - destruct (decide (new_state P user_session = k)) as [->|Hne]; cbn [dict_get].
      + by rewrite decide_True.
      + by rewrite decide_False. }
  assert (¬ is_expired swept w1 (new_state P user_session, a)) as Hfresh.
  { unfold is_expired, age, created_at_key. cbn [snd].
    rewrite (deref_lookup _ _ _ Hd). cbn. unfold EXPIRY_TIME. lia. }
  exists d. split_and!; try done.
  unfold flow_of. rewrite (elem_of_dict_get _ a _ Hs2).
  - cbn. rewrite Hh, decide_False; [done|].
    intros (item & Haddr & [Hexp Hitem]%list_elem_of_filter)%list_elem_of_fmap.
    destruct Hwf1 as [_ Ha1 _].
    by rewrite <-(NoDup_fmap_eq snd _ _ _ Ha1 Hin Hitem Haddr) in Hexp.
  - rewrite Ht. by apply list_elem_of_filter.
Qed.

Lemma create_auth_url_registers_the_flow_witness :
  let r := create_auth_url good_platform None (Some "alice") 2000 2001 one_flow in
  well_formed one_flow
  ∧ 2001 - 2000 ≤ 600
  ∧ r = (AuthUrl
           "https://accounts.google.com/o/oauth2/auth?state=alice_123e4567-e89b-42d3-a456-426614174000"
           "alice_123e4567-e89b-42d3-a456-426614174000" 8080 true None, r.2)
  ∧ "alice_123e4567-e89b-42d3-a456-426614174000" = new_state good_platform (Some "alice")
  ∧ ∃ d, flow_of "alice_123e4567-e89b-42d3-a456-426614174000" r.2 = Some d
      ∧ flow_data.code d = Some None
      ∧ flow_data.completed d = Some false
      ∧ flow_data.callback_port d = Some 8080
      ∧ flow_data.created_at d = Some 2000
      ∧ flow_data.project_id d = Some None
      ∧ flow_data.user_session d = Some (Some "alice")
      ∧ flow_data.auto_project_detection d = Some true
      ∧ true = bool_decide (@None string = None)
      ∧ @None string = None.
Proof.
  intros r.
  assert (2001 - 2000 ≤ 600) as Hage by lia.
  assert (r = (AuthUrl
                 "https://accounts.google.com/o/oauth2/auth?state=alice_123e4567-e89b-42d3-a456-426614174000"
                 "alice_123e4567-e89b-42d3-a456-426614174000" 8080 true None, r.2)) as Hr.
  { by vm_compute. }
  split_and!; [exact one_flow_well_formed|done|done|..];
    apply (create_auth_url_registers_the_flow good_platform None (Some "alice") 2000 2001
             one_flow _ _ _ _ _ _ one_flow_well_formed Hage Hr).
Defined.

(** When the clock jumps by more than the expiry time between the two
    readings, success is reported for a flow that the sweep has removed
    already. *)
Example create_auth_url_clock_jump :
  let '(r, w) := create_auth_url good_platform None None 2000 2601 (World [] [] []) in
  r = AuthUrl
        "https://accounts.google.com/o/oauth2/auth?state=123e4567-e89b-42d3-a456-426614174000"
        "123e4567-e89b-42d3-a456-426614174000" 8080 true None
  ∧ auth_flows w = [].
Proof. by vm_compute. Qed.

End creation.

Section repeated.
Implicit Types (w : world) (q : gmap string (list string)).

Lemma mutate_mutate a f g w : mutate a f (mutate a g w) = mutate a (f ∘ g) w.
Proof. unfold mutate. cbn [heap auth_flows trace]. by rewrite list_alter_alter_eq. Qed.

Lemma mutate_ext a f g w : (∀ d, f d = g d) → mutate a f w = mutate a g w.
Proof.
  intros Hfg. unfold mutate. f_equal. apply list_alter_ext; [|done]. intros d _. apply Hfg.
Qed.

Lemma auth_flows_mutate a f w : auth_flows (mutate a f w) = auth_flows w.
Proof. done. Qed.

(** X8. Serving the same callback again changes nothing further and is
    answered as before: the listener is idempotent. *)
Theorem do_GET_idempotent q w : do_GET q (do_GET q w).2 = do_GET q w.
Proof.
  destruct (do_GET q w) as [r w'] eqn:Hfirst. cbn [snd].
  unfold do_GET in *.
  destruct (first_value "state" q) as [s|]; [|by injection Hfirst as <- <-].
  destruct (truthy (first_value "code" q) && truthy (Some s) && dict_in s (auth_flows w))
    eqn:Hcond.
  2:{ injection Hfirst as <- <-. by rewrite Hcond. }
  unfold getitem in *. destruct (dict_get s (auth_flows w)) as [a|] eqn:Ha.
  2:{ injection Hfirst as <- <-. by rewrite Hcond, Ha. }
  injection Hfirst as <- <-. rewrite !auth_flows_mutate, Hcond, Ha. f_equal.
  rewrite !mutate_mutate. apply mutate_ext. by intros [].
Qed.

End repeated.

Section sweeps_more.
Implicit Types (w : world).

(** X9. After a sweep, a sweep at the same or an earlier time removes
    nothing and changes nothing: sweeping is idempotent. *)
Theorem cleanup_expired_flows_idempotent now earlier w w' :
  well_formed w → earlier ≤ now →
  cleanup_expired_flows now w = Ok w' →
  cleanup_expired_flows earlier w' = Ok w'.
Proof.
  intros Hwf Hle Hsweep.
  pose proof (cleanup_expired_flows_well_formed now w w' Hwf Hsweep) as Hwf'.
  destruct (cleanup_expired_flows_spec now w Hwf) as (w'' & Heq & Ht & _ & Hh).
  rewrite Heq in Hsweep. injection Hsweep as ->.
  unfold cleanup_expired_flows.
  rewrite (states_to_remove_filter earlier w' _ (wf_created _ Hwf')).
  assert (filter (is_expired earlier w') (auth_flows w') = []) as ->; [|done].
  assert (∀ item, item ∈ auth_flows w' → ¬ is_expired earlier w' item) as Hnone.
  2:{ clear -Hnone. induction (auth_flows w') as [|x l IH]; [done|].
      rewrite filter_cons_False by (apply Hnone; left).
      apply IH. intros item Hin. apply Hnone. by right. }
  intros item Hin Hexp. pose proof Hin as Hin'.
  rewrite Ht in Hin'. apply list_elem_of_filter in Hin' as [Hnot Hin0].
  apply Hnot. unfold is_expired, age, created_at_key, deref in *.
  rewrite Hh, decide_False in Hexp; [lia|].
  intros (item' & Haddr & [Hexp' Hitem']%list_elem_of_filter)%list_elem_of_fmap.
  destruct Hwf as [_ Ha _].
  by rewrite <-(NoDup_fmap_eq snd _ _ _ Ha Hin0 Hitem' Haddr) in Hexp'.
Qed.

Lemma cleanup_expired_flows_idempotent_witness :
  well_formed two_flows ∧ 1650 ≤ 1700
  ∧ cleanup_expired_flows 1700 two_flows
    = Ok (World [flow_data.empty; sample_flow 8081 2 1500] [("new", 1%nat)]
            [Shutdown 1 (Some 8080); Del "old"])
  ∧ cleanup_expired_flows 1650
      (World [flow_data.empty; sample_flow 8081 2 1500] [("new", 1%nat)]
         [Shutdown 1 (Some 8080); Del "old"])
    = Ok (World [flow_data.empty; sample_flow 8081 2 1500] [("new", 1%nat)]
            [Shutdown 1 (Some 8080); Del "old"]).
Proof.
  assert (1650 ≤ 1700) as Hle by lia.
  assert (cleanup_expired_flows 1700 two_flows
          = Ok (World [flow_data.empty; sample_flow 8081 2 1500] [("new", 1%nat)]
                  [Shutdown 1 (Some 8080); Del "old"])) as Hsweep by by vm_compute.
  exact (conj two_flows_well_formed (conj Hle (conj Hsweep
           (cleanup_expired_flows_idempotent 1700 1650 two_flows _
              two_flows_well_formed Hle Hsweep)))).
Defined.

(** X10. After [cleanup_auth_flows_for_memory] the store holds at most 10
    flows, none of which had expired, and the function returns their
    number. *)
Theorem cleanup_auth_flows_for_memory_bound now w :
  well_formed w →
  ∃ w', cleanup_auth_flows_for_memory now w = Ok (length (auth_flows w'), w')
    ∧ (length (auth_flows w') ≤ 10)%nat
    ∧ ∀ item, item ∈ auth_flows w' → item ∈ auth_flows w ∧ age now w item ≤ 600.
Proof.
  intros Hwf.
  destruct (cleanup_auth_flows_for_memory_spec now w Hwf)
    as (w1 & w2 & Hsweep & Hrun & _ & _ & Hkept & _ & _ & Hten & Hfew).
  exists w2. split; [done|]. split.
  - destruct (decide (10 < length (auth_flows w1))%nat) as [Hlen|Hlen].
    + rewrite Hten by done. lia.
    + rewrite Hfew by lia. lia.
  - intros item Hin. destruct (Hkept _ Hin) as [Hin1 _].
    destruct (cleanup_expired_flows_spec now w Hwf) as (w1' & Heq & Ht & _).
    rewrite Heq in Hsweep. injection Hsweep as ->.
    rewrite Ht in Hin1. apply list_elem_of_filter in Hin1 as [Hnot Hin0].
    split; [done|]. by apply not_expired_le.
Qed.

Lemma cleanup_auth_flows_for_memory_bound_witness :
  well_formed (many_flows 12)
  ∧ ∃ w', cleanup_auth_flows_for_memory 1100 (many_flows 12)
          = Ok (length (auth_flows w'), w')
      ∧ (length (auth_flows w') ≤ 10)%nat
      ∧ ∀ item, item ∈ auth_flows w' →
          item ∈ auth_flows (many_flows 12) ∧ age 1100 (many_flows 12) item ≤ 600.
Proof.
  exact (conj many_flows_12_well_formed
           (cleanup_auth_flows_for_memory_bound 1100 (many_flows 12)
              many_flows_12_well_formed)).
Defined.

End sweeps_more.
